(** * Blocks and execution speed limits

    A shallow embedding of [Block] (the ordered, doubly indexed collection of
    named columns of [Core/Block.cpp]) and of [ExecutionSpeedLimits::throttle]
    ([DataStreams/ExecutionSpeedLimits.cpp]), with the properties of the
    specification stated and settled against them.

    Conventions.
    - Container sizes and positions ([size_t] values that count elements held
      in memory) are [nat]; the 64-bit progress counters of the throttle are
      [Z] with their wrap-around written out.
    - [double] is IEEE 754 binary64, computed with the executable
      specification of the Standard Library ([SpecFloat], precision 53).
    - A thrown [DB::Exception] is a value [Throw code message].
    - A column handle is null when it designates no object of the memory;
      the dereference of a null handle is the outcome [NullPointer]. *)

From Stdlib Require Import ZArith Bool Lia.
From Stdlib Require Import Floats.SpecFloat.
From stdpp Require Import strings pretty functions gmap list.

(** ** Error codes and results *)

Inductive ErrorCode :=
| POSITION_OUT_OF_BOUND
| NOT_FOUND_COLUMN_IN_BLOCK
| SIZES_OF_COLUMNS_DOESNT_MATCH
| SIZES_OF_ARRAYS_DOESNT_MATCH
| TOO_SLOW.

(** The outcome of a call: a value, a thrown exception, undefined
    behaviour of the C++ (a dereferenced or erased iterator that designates
    no node of the container), or the dereference of a null column handle.
    The handle is a shared pointer of a library, which decides what follows
    the dereference of a null one, an exception of its own or undefined
    behaviour; the call does not go on and returns no value. *)
Inductive result (A : Type) :=
| Ok (a : A)
| Throw (code : ErrorCode) (message : string)
| Undefined
| NullPointer.
Arguments Ok {A} a.
Arguments Throw {A} code message.
Arguments Undefined {A}.
Arguments NullPointer {A}.

#[global] Instance result_ret : MRet result := fun A a => Ok a.

#[global] Instance result_bind : MBind result := fun A B k r =>
  match r with
  | Ok a => k a
  | Throw c m => Throw c m
  | Undefined => Undefined
  | NullPointer => NullPointer
  end.

Definition from_option {A} (o : option A) : result A :=
  match o with Some a => Ok a | None => Undefined end.

Definition throws {A} (r : result A) (c : ErrorCode) : Prop :=
  exists message, r = Throw c message.

(** [includes sub s]: the text [sub] occurs in [s]. *)
Fixpoint includes (sub s : string) : bool :=
  String.prefix sub s ||
  match s with
  | EmptyString => false
  | String _ s' => includes sub s'
  end.

(** ** ExecutionSpeedLimits *)

Module Limits.

Open Scope Z_scope.

Definition wrap64 (z : Z) : Z := z mod 2 ^ 64.

(** [static_cast<Int64>] of an unsigned 64-bit value. *)
Definition to_Int64 (z : Z) : Z :=
  if z <? 2 ^ 63 then z else z - 2 ^ 64.

(** Conversion to [int] (32 bits, two's complement). *)
Definition to_int (z : Z) : Z :=
  let r := z mod 2 ^ 32 in if r <? 2 ^ 31 then r else r - 2 ^ 32.

Definition double := spec_float.
Definition to_double (z : Z) : double := binary_normalize 53 1024 z 0 false.
Definition ddiv : double -> double -> double := SFdiv 53 1024.
Definition dmul : double -> double -> double := SFmul 53 1024.
Definition dlt : double -> double -> bool := SFltb.
Definition dle : double -> double -> bool := SFleb.

(** [Poco::Timespan], the type of the two durations of the limits, is a
    library type: a signed 64-bit count of microseconds, whose
    [totalSeconds()] is that count divided by [1000000], as an [int]. *)
Record Timespan := { totalMicroseconds : Z }.

Definition totalSeconds (t : Timespan) : Z :=
  to_int (Z.quot (totalMicroseconds t) 1000000).

(** Modelled from the spec: the thresholds, declared in a header that is not
    among the sources at hand; zero disables a threshold. The four speeds
    are unsigned 64-bit numbers. *)
Record ExecutionSpeedLimits := {
  min_execution_speed : Z;
  max_execution_speed : Z;
  min_execution_speed_bytes : Z;
  max_execution_speed_bytes : Z;
  max_execution_time : Timespan;
  timeout_before_checking_execution_speed : Timespan
}.

(** Modelled from the spec: the execution context of the calling thread, of
    which [throttle] reads and increments the named counter
    [ThrottlerSleepMicroseconds] (the profile events and the current thread
    are not among the sources at hand). [sleeps] records the calls of
    [sleepForMicroseconds], the most recent first. *)
Record Context := {
  ThrottlerSleepMicroseconds : Z;
  sleeps : list Z
}.

Definition sleepForMicroseconds (us : Z) (ctx : Context) : Context :=
  {| ThrottlerSleepMicroseconds := ThrottlerSleepMicroseconds ctx;
     sleeps := us :: sleeps ctx |}.

Definition increment (amount : Z) (ctx : Context) : Context :=
  {| ThrottlerSleepMicroseconds := wrap64 (ThrottlerSleepMicroseconds ctx + amount);
     sleeps := sleeps ctx |}.

(** What the message of a [TOO_SLOW] exception reports. *)
Inductive TooSlow :=
| TooSlowRows (rows_per_sec : double) (minimum : Z)
| TooSlowBytes (bytes_per_sec : double) (minimum : Z)
| TooLong (estimated_seconds : double) (maximum : Z) (total_rows : Z).

Inductive outcome :=
| Returned
| Exception (code : ErrorCode) (what : TooSlow).

Definition limitProgressingSpeed
    (total_progress_size max_speed_in_seconds total_elapsed_microseconds : Z)
    (ctx : Context) : Context :=
  let desired_microseconds :=
    wrap64 (total_progress_size * 1000000) / max_speed_in_seconds in
  if desired_microseconds >? total_elapsed_microseconds then
    let sleep_microseconds := desired_microseconds - total_elapsed_microseconds in
    let sleep_microseconds := Z.min 1000000 sleep_microseconds in
    increment sleep_microseconds (sleepForMicroseconds sleep_microseconds ctx)
  else ctx.

Definition nonzero (z : Z) : bool := negb (z =? 0).

(** The corrected elapsed time, as the code computes it. *)
Definition elapsed_seconds_of (total_elapsed_microseconds throttler_sleep_microseconds : Z)
    : double :=
  if throttler_sleep_microseconds >? total_elapsed_microseconds then
    ddiv (to_double (wrap64 (total_elapsed_microseconds - throttler_sleep_microseconds)))
         (to_double 1000000)
  else to_double 0.

(** The condition under which a call looks at the speed at all: a threshold
    is set, and the grace period is over. *)
Definition speed_is_checked (l : ExecutionSpeedLimits)
    (total_rows total_elapsed_microseconds : Z) : bool :=
  (nonzero (min_execution_speed l) || nonzero (max_execution_speed l)
   || nonzero (min_execution_speed_bytes l) || nonzero (max_execution_speed_bytes l)
   || (nonzero total_rows
       && nonzero (totalMicroseconds (timeout_before_checking_execution_speed l))))
  && (to_Int64 total_elapsed_microseconds
      >? totalMicroseconds (timeout_before_checking_execution_speed l)).

Definition throttle (l : ExecutionSpeedLimits)
    (read_rows read_bytes total_rows total_elapsed_microseconds : Z)
    (ctx : Context) : Context * outcome :=
  if speed_is_checked l total_rows total_elapsed_microseconds then
    let throttler_sleep_microseconds := ThrottlerSleepMicroseconds ctx in
    let elapsed_seconds :=
      elapsed_seconds_of total_elapsed_microseconds throttler_sleep_microseconds in
    if dlt (to_double 0) elapsed_seconds then
      if nonzero (min_execution_speed l)
         && dlt (ddiv (to_double read_rows) elapsed_seconds)
                (to_double (min_execution_speed l))
      then (ctx, Exception TOO_SLOW
                   (TooSlowRows (ddiv (to_double read_rows) elapsed_seconds)
                                (min_execution_speed l)))
      else if nonzero (min_execution_speed_bytes l)
         && dlt (ddiv (to_double read_bytes) elapsed_seconds)
                (to_double (min_execution_speed_bytes l))
      then (ctx, Exception TOO_SLOW
                   (TooSlowBytes (ddiv (to_double read_bytes) elapsed_seconds)
                                 (min_execution_speed_bytes l)))
      else
        let estimated_execution_time_seconds :=
          dmul elapsed_seconds (ddiv (to_double total_rows) (to_double read_rows)) in
        if nonzero (totalMicroseconds (max_execution_time l))
           && nonzero total_rows && nonzero read_rows
           && dlt (to_double (totalSeconds (max_execution_time l)))
                  estimated_execution_time_seconds
        then (ctx, Exception TOO_SLOW
                     (TooLong estimated_execution_time_seconds
                              (totalSeconds (max_execution_time l)) total_rows))
        else
          let ctx1 :=
            if nonzero (max_execution_speed l)
               && dle (to_double (max_execution_speed l))
                      (ddiv (to_double read_rows) elapsed_seconds)
            then limitProgressingSpeed read_rows (max_execution_speed l)
                                       total_elapsed_microseconds ctx
            else ctx in
          let ctx2 :=
            if nonzero (max_execution_speed_bytes l)
               && dle (to_double (max_execution_speed_bytes l))
                      (ddiv (to_double read_bytes) elapsed_seconds)
            then limitProgressingSpeed read_bytes (max_execution_speed_bytes l)
                                       total_elapsed_microseconds ctx1
            else ctx1 in
          (ctx2, Returned)
    else (ctx, Returned)
  else (ctx, Returned).

(** The limits of the two examples of the specification, the other
    thresholds left open. *)
Definition min_speed_1000 (maxs minb maxb : Z) (maxt : Timespan) : ExecutionSpeedLimits :=
  {| min_execution_speed := 1000; max_execution_speed := maxs;
     min_execution_speed_bytes := minb; max_execution_speed_bytes := maxb;
     max_execution_time := maxt;
     timeout_before_checking_execution_speed := {| totalMicroseconds := 0 |} |}.

Definition max_speed_100 (mins minb maxb : Z) (maxt timeout : Timespan) : ExecutionSpeedLimits :=
  {| min_execution_speed := mins; max_execution_speed := 100;
     min_execution_speed_bytes := minb; max_execution_speed_bytes := maxb;
     max_execution_time := maxt;
     timeout_before_checking_execution_speed := timeout |}.

End Limits.

(** ** Block *)

Module Block.

(** *** Columns and types, as far as a block looks at them *)

(** A type descriptor: its name and the two traits the comparators read. *)
Record IDataType := {
  getName : string;
  behavesAsNumber : bool;
  behavesAsString : bool
}.

(** A [ColumnPtr] is a shared handle to a column object; the offsets of an
    array column are themselves a shared column, designated by a handle. *)
Abbreviation ColumnPtr := nat (only parsing).
Abbreviation OffsetsPtr := nat (only parsing).

(** A column object is a [ColumnArray], which holds the handle of its
    offsets column, or a column of any other kind, of which only the number
    of rows matters here. *)
Inductive IColumn :=
| ColumnArray (offsets : OffsetsPtr)
| ColumnOther (rows : nat).

(** The column objects the handles designate, and the contents of the
    offsets columns. Several elements, of one block or of several, may hold
    the same handle. A handle that designates no object is null. *)
Record Memory := {
  object : ColumnPtr -> option IColumn;
  getOffsets : OffsetsPtr -> list nat
}.

(** [isNull()] of a handle *)
Definition isNull (m : Memory) (c : ColumnPtr) : bool :=
  match object m c with
  | Some _ => false
  | None => true
  end.

(** [IColumn::size()] of the object that [c] designates: an array column
    has one row per offset. A null handle designates no object to ask; the
    functions below come to the size of a handle only after its
    dereference, which a null handle does not pass. *)
Definition column_size (m : Memory) (c : ColumnPtr) : nat :=
  match object m c with
  | Some (ColumnArray o) => length (getOffsets m o)
  | Some (ColumnOther n) => n
  | None => 0
  end.

Record ColumnWithNameAndType := {
  column : ColumnPtr;
  type : IDataType;
  name : string
}.

(** *** The container

    The header of the class is not among the sources at hand; its three
    members are as the member functions use them. [data] is a [std::list]:
    its iterators designate nodes and stay valid when other nodes are
    inserted or erased. A node is an element paired with its identity;
    [next_node] is the identity the next allocated node gets.
    [index_by_position] is a vector of iterators and [index_by_name] a map
    from names to iterators. *)
Abbreviation iterator := nat (only parsing).
Abbreviation Container_t := (list (nat * ColumnWithNameAndType)) (only parsing).

Record Block := {
  data : Container_t;
  index_by_position : list iterator;
  index_by_name : gmap string iterator;
  next_node : iterator
}.

Definition empty : Block :=
  {| data := []; index_by_position := []; index_by_name := ∅; next_node := 1 |}.

(** The value of a default-constructed iterator, as [resize] appends it. *)
Definition singular : iterator := 0.

(** [*it] *)
Fixpoint deref (l : Container_t) (it : iterator) : option ColumnWithNameAndType :=
  match l with
  | [] => None
  | (i, e) :: l' => if decide (i = it) then Some e else deref l' it
  end.

(** [std::distance(l.begin(), it)] *)
Fixpoint distance (l : Container_t) (it : iterator) : option nat :=
  match l with
  | [] => None
  | (i, _) :: l' => if decide (i = it) then Some 0 else S <$> distance l' it
  end.

(** [l.insert(it, x)], for [it] a node of [l] *)
Fixpoint list_insert_before (l : Container_t) (it : iterator)
    (x : nat * ColumnWithNameAndType) : option Container_t :=
  match l with
  | [] => None
  | (i, e) :: l' =>
      if decide (i = it) then Some (x :: (i, e) :: l')
      else cons (i, e) <$> list_insert_before l' it x
  end.

(** [l.erase(it)] *)
Fixpoint list_erase (l : Container_t) (it : iterator) : option Container_t :=
  match l with
  | [] => None
  | (i, e) :: l' =>
      if decide (i = it) then Some l' else cons (i, e) <$> list_erase l' it
  end.

(** The elements in order, and their names. *)
Definition elements (b : Block) : list ColumnWithNameAndType := (data b).*2.
Definition names (b : Block) : list string := name <$> elements b.

(** Modelled from the spec: [columns()], the column count, is defined in the
    header of the class, which is not among the sources at hand; it is taken
    as the number of slots of the position index. *)
Definition columns (b : Block) : nat := length (index_by_position b).

Definition toString (n : nat) : string := pretty n.

(** [size() - 1] on a [size_t], as printed. *)
Definition toString_pred (n : nat) : string :=
  pretty ((N.of_nat n + 2 ^ 64 - 1) mod 2 ^ 64)%N.

(** *** Insertion *)

(** [Block::insert(const ColumnWithNameAndType &)] *)
Definition insert (b : Block) (elem : ColumnWithNameAndType) : Block :=
  let it := next_node b in
  {| data := data b ++ [(it, elem)];
     index_by_name := <[name elem := it]> (index_by_name b);
     index_by_position := index_by_position b ++ [it];
     next_node := S it |}.

(** [for (i = size - 1; i > position; --i) v[i] = v[i - 1];] started at [i] *)
Fixpoint shift_up (i position : nat) (v : list iterator) : list iterator :=
  match i with
  | O => v
  | S j =>
      if decide (position < i)
      then shift_up j position (<[i := default singular (v !! j)]> v)
      else v
  end.

(** [Block::insert(size_t, const ColumnWithNameAndType &)] *)
Definition insert_at (b : Block) (position : nat) (elem : ColumnWithNameAndType)
    : result Block :=
  let size := length (index_by_position b) in
  if decide (size < position) then
    Throw POSITION_OUT_OF_BOUND
      ("Position out of bound in Block::insert(), max position = " +:+ toString size)
  else if decide (position = size) then Ok (insert b elem)
  else
    at_position ← from_option (index_by_position b !! position);
    let it := next_node b in
    data' ← from_option (list_insert_before (data b) at_position (it, elem));
    let by_name := <[name elem := it]> (index_by_name b) in
    let resized := resize (size + 1) singular (index_by_position b) in
    let shifted := shift_up (length resized - 1) position resized in
    Ok {| data := data';
          index_by_name := by_name;
          index_by_position := <[position := it]> shifted;
          next_node := S it |}.

(** [Block::has] *)
Definition has (b : Block) (n : string) : bool :=
  bool_decide (is_Some (index_by_name b !! n)).

(** [Block::insertUnique] *)
Definition insertUnique (b : Block) (elem : ColumnWithNameAndType) : Block :=
  if has b (name elem) then b else insert b elem.

(** *** Removal *)

(** [for (i = position; i < size; ++i) v[i] = v[i + 1];] with [count]
    iterations left *)
Fixpoint shift_down (count i : nat) (v : list iterator) : list iterator :=
  match count with
  | O => v
  | S count' => shift_down count' (S i) (<[i := default singular (v !! S i)]> v)
  end.

Definition erase_slot (position : nat) (v : list iterator) : list iterator :=
  let size := length v - 1 in
  resize (length v - 1) singular (shift_down (size - position) position v).

(** [Block::erase(size_t)]. The entry of the name index is erased through
    the iterator that [find] returns: when the name has no entry, that is
    the end iterator, and erasing it is undefined. *)
Definition erase (b : Block) (position : nat) : result Block :=
  let size := length (index_by_position b) in
  if decide (size <= position) then
    Throw POSITION_OUT_OF_BOUND
      ("Position out of bound in Block::erase(), max position = " +:+ toString size)
  else
    it ← from_option (index_by_position b !! position);
    elem ← from_option (deref (data b) it);
    _ ← from_option (index_by_name b !! name elem);
    data' ← from_option (list_erase (data b) it);
    Ok {| data := data';
          index_by_name := delete (name elem) (index_by_name b);
          index_by_position := erase_slot position (index_by_position b);
          next_node := next_node b |}.

(** [Block::erase(const String &)] *)
Definition erase_name (b : Block) (n : string) : result Block :=
  match index_by_name b !! n with
  | None =>
      Throw NOT_FOUND_COLUMN_IN_BLOCK
        ("No such name in Block::erase(): '" +:+ n +:+ "'")
  | Some it =>
      position ← from_option (distance (data b) it);
      data' ← from_option (list_erase (data b) it);
      Ok {| data := data';
            index_by_name := delete n (index_by_name b);
            index_by_position := erase_slot position (index_by_position b);
            next_node := next_node b |}
  end.

(** *** Access *)

Fixpoint dumpNames_from (first : bool) (l : Container_t) : string :=
  match l with
  | [] => EmptyString
  | (_, e) :: l' =>
      (if first then EmptyString else ", ") +:+ name e +:+ dumpNames_from false l'
  end.

Definition dumpNames (b : Block) : string := dumpNames_from true (data b).

Definition getByPosition (b : Block) (position : nat) : result ColumnWithNameAndType :=
  let size := length (index_by_position b) in
  if decide (size <= position) then
    Throw POSITION_OUT_OF_BOUND
      ("Position " +:+ toString position
       +:+ " is out of bound in Block::getByPosition(), max position = "
       +:+ toString_pred size
       +:+ ", there are columns: " +:+ dumpNames b)
  else
    it ← from_option (index_by_position b !! position);
    from_option (deref (data b) it).

Definition not_found (b : Block) (n : string) : string :=
  "Not found column " +:+ n +:+ " in block. There are only columns: " +:+ dumpNames b.

Definition getByName (b : Block) (n : string) : result ColumnWithNameAndType :=
  match index_by_name b !! n with
  | None => Throw NOT_FOUND_COLUMN_IN_BLOCK (not_found b n)
  | Some it => from_option (deref (data b) it)
  end.

Definition getPositionByName (b : Block) (n : string) : result nat :=
  match index_by_name b !! n with
  | None => Throw NOT_FOUND_COLUMN_IN_BLOCK (not_found b n)
  | Some it => from_option (distance (data b) it)
  end.

(** *** Rows *)

(** The loop of [Block::rows], from [res] on. [it->column->size()]
    dereferences the handle, null or not, and then asks the size. *)
Fixpoint rows_from (m : Memory) (first_name : string) (l : Container_t) (res : nat)
    : result nat :=
  match l with
  | [] => Ok res
  | (_, e) :: l' =>
      if isNull m (column e) then NullPointer
      else
        let size := column_size m (column e) in
        if negb (res =? 0) && negb (size =? res) then
          Throw SIZES_OF_COLUMNS_DOESNT_MATCH
            ("Sizes of columns doesn't match: "
             +:+ first_name +:+ ": " +:+ toString res
             +:+ ", " +:+ name e +:+ ": " +:+ toString size)
        else rows_from m first_name l' size
  end.

Definition first_name (l : Container_t) : string :=
  match l with
  | [] => EmptyString
  | (_, e) :: _ => name e
  end.

(** [Block::rows] *)
Definition rows (m : Memory) (b : Block) : result nat :=
  rows_from m (first_name (data b)) (data b) 0.

(** *** Structural comparison *)

Definition typesAreCompatible (lhs rhs : IDataType) : bool :=
  if behavesAsNumber lhs && behavesAsNumber rhs then true
  else if behavesAsString lhs && behavesAsString rhs then true
  else if bool_decide (getName lhs = getName rhs) then true
  else false.

(** The loop of both comparators, [count] iterations from position [i];
    [same] decides whether two types pass. *)
Fixpoint structure_loop (same : IDataType -> IDataType -> bool) (lhs rhs : Block)
    (count i : nat) : result bool :=
  match count with
  | O => Ok true
  | S count' =>
      l ← getByPosition lhs i;
      r ← getByPosition rhs i;
      if same (type l) (type r) then structure_loop same lhs rhs count' (S i)
      else Ok false
  end.

Definition blocksHaveEqualStructure (lhs rhs : Block) : result bool :=
  let columns_ := columns lhs in
  if negb (columns rhs =? columns_) then Ok false
  else structure_loop (fun l r => bool_decide (getName l = getName r))
                      lhs rhs columns_ 0.

Definition blocksHaveCompatibleStructure (lhs rhs : Block) : result bool :=
  let columns_ := columns lhs in
  if negb (columns rhs =? columns_) then Ok false
  else structure_loop typesAreCompatible lhs rhs columns_ 0.

(** *** Nested arrays *)

(** Modelled from the spec: [ColumnArray::hasEqualOffsets], whose source is
    not at hand, decides whether two array columns have equal per-row
    offsets; two columns that share their offsets column trivially do. *)
Definition hasEqualOffsets (m : Memory) (a b : OffsetsPtr) : bool :=
  bool_decide (a = b) || bool_decide (getOffsets m a = getOffsets m b).

(** [typeid_cast<ColumnArray *>] of the object of a handle, as far as the
    offsets go: the offsets column of an array column, nothing for a column
    of another kind (and for a null handle, which has no object to cast). *)
Definition offsets_of (m : Memory) (c : ColumnPtr) : option OffsetsPtr :=
  match object m c with
  | Some (ColumnArray o) => Some o
  | _ => None
  end.

(** [column_array->getOffsetsColumn() = offsets] on the object [c] *)
Definition set_offsets (m : Memory) (c : ColumnPtr) (o : OffsetsPtr) : Memory :=
  {| object := <[c := Some (ColumnArray o)]> (object m); getOffsets := getOffsets m |}.

Definition sizes_do_not_match : string := "Sizes of nested arrays do not match".

Section Nested.

(** [DataTypeNested::extractNestedTableName], which maps the name of a
    column to the name of its nested table, is not among the sources at
    hand; the two passes are taken over any such function, taken to
    return. *)
Variable extractNestedTableName : string -> string.

(** The loop of [Block::checkNestedArraysOffsets]; [array_columns] maps the
    nested tables met so far to their first array column. The handle of
    every column is dereferenced ([&*column.column]) before the cast. *)
Fixpoint check_from (m : Memory) (l : Container_t) (array_columns : gmap string ColumnPtr)
    : result unit :=
  match l with
  | [] => Ok tt
  | (_, e) :: l' =>
      if isNull m (column e) then NullPointer
      else
        match offsets_of m (column e) with
        | Some o =>
            let n := extractNestedTableName (name e) in
            match array_columns !! n with
            | None => check_from m l' (<[n := column e]> array_columns)
            | Some first =>
                match offsets_of m first with
                | Some o1 =>
                    if hasEqualOffsets m o1 o then check_from m l' array_columns
                    else Throw SIZES_OF_ARRAYS_DOESNT_MATCH sizes_do_not_match
                | None => Undefined
                end
            end
        | None => check_from m l' array_columns
        end
  end.

Definition checkNestedArraysOffsets (m : Memory) (b : Block) : result unit :=
  check_from m (data b) ∅.

(** The loop of [Block::optimizeNestedArraysOffsets]. It writes to the
    column objects, so it returns the memory as well, also when it does not
    return. *)
Fixpoint optimize_from (m : Memory) (l : Container_t) (array_columns : gmap string ColumnPtr)
    : result unit * Memory :=
  match l with
  | [] => (Ok tt, m)
  | (_, e) :: l' =>
      if isNull m (column e) then (NullPointer, m)
      else
        match offsets_of m (column e) with
        | Some o =>
            let n := extractNestedTableName (name e) in
            match array_columns !! n with
            | None => optimize_from m l' (<[n := column e]> array_columns)
            | Some first =>
                match offsets_of m first with
                | Some o1 =>
                    if hasEqualOffsets m o1 o
                    then optimize_from (set_offsets m (column e) o1) l' array_columns
                    else (Throw SIZES_OF_ARRAYS_DOESNT_MATCH sizes_do_not_match, m)
                | None => (Undefined, m)
                end
            end
        | None => optimize_from m l' array_columns
        end
  end.

Definition optimizeNestedArraysOffsets (m : Memory) (b : Block) : result unit * Memory :=
  optimize_from m (data b) ∅.

End Nested.

(** *** The representation invariant

    The position index lists the nodes of [data] in order, the nodes are
    distinct and older than [next_node], and an entry of the name index
    designates a node that carries that name. *)
Record wf (b : Block) : Prop := {
  wf_position : index_by_position b = (data b).*1;
  wf_nodup : NoDup (data b).*1;
  wf_next : Forall (fun i => i < next_node b) (data b).*1;
  wf_name : forall n it,
    index_by_name b !! n = Some it -> exists e, (it, e) ∈ data b /\ name e = n
}.

(** Every element is the one its name is indexed to. *)
Definition indexed (b : Block) : Prop :=
  forall it e, (it, e) ∈ data b -> index_by_name b !! name e = Some it.

(** The block with [elem] put in at [position] in a new node. *)
Definition inserted (b : Block) (position : nat) (elem : ColumnWithNameAndType) : Block :=
  {| data := take position (data b) ++ (next_node b, elem) :: drop position (data b);
     index_by_name := <[name elem := next_node b]> (index_by_name b);
     index_by_position :=
       take position (index_by_position b) ++ next_node b :: drop position (index_by_position b);
     next_node := S (next_node b) |}.

(** The block without the node at [position], whose name is [n]. *)
Definition erased (b : Block) (position : nat) (n : string) : Block :=
  {| data := delete position (data b);
     index_by_name := delete n (index_by_name b);
     index_by_position := delete position (index_by_position b);
     next_node := next_node b |}.

(** *** Sequences of operations

    The blocks that a sequence of insertions and erasures builds from the
    empty block, one successful operation after the other. With [unique]
    set, an insertion is allowed only for a name of which [has] says that
    the block does not have it. *)
Inductive reachable (unique : bool) : Block -> Prop :=
| reach_empty : reachable unique empty
| reach_insert b e :
    reachable unique b ->
    (unique = true -> has b (name e) = false) ->
    reachable unique (insert b e)
| reach_insert_at b position e b' :
    reachable unique b ->
    (unique = true -> has b (name e) = false) ->
    insert_at b position e = Ok b' ->
    reachable unique b'
| reach_erase b position b' :
    reachable unique b -> erase b position = Ok b' -> reachable unique b'
| reach_erase_name b n b' :
    reachable unique b -> erase_name b n = Ok b' -> reachable unique b'.

(** Index consistency: every name of the block is found at a position
    where an element of that name is, and the position index has one slot
    per element. *)
Definition index_consistent (b : Block) : Prop :=
  (forall n, n ∈ names b ->
     exists position e,
       getPositionByName b n = Ok position /\
       getByPosition b position = Ok e /\ name e = n)
  /\ length (index_by_position b) = length (elements b).

(** A column of the examples: named [n], of type [t], held by handle [c]. *)
Definition col (n : string) (t : IDataType) (c : ColumnPtr) : ColumnWithNameAndType :=
  {| column := c; type := t; name := n |}.

Definition Int32 : IDataType :=
  {| getName := "Int32"; behavesAsNumber := true; behavesAsString := false |}.
Definition Int64 : IDataType :=
  {| getName := "Int64"; behavesAsNumber := true; behavesAsString := false |}.
Definition String_ : IDataType :=
  {| getName := "String"; behavesAsNumber := false; behavesAsString := true |}.

(** The block with columns [a], [b], [c]. *)
Definition abc : Block :=
  insert (insert (insert empty (col "a" Int32 0)) (col "b" Int32 1)) (col "c" Int32 2).

(** Two columns named [a], built by appending twice. *)
Definition aa : Block := insert (insert empty (col "a" Int32 0)) (col "a" Int64 1).

(** What is left of [aa] when the first of them is erased. *)
Definition aa_erased : Block := erased aa 0 "a".

(** The column that the positional insert of the examples puts in. *)
Definition mid : ColumnWithNameAndType := col "mid" Int32 3.

(** One column [x], of three different types. *)
Definition x_Int32 : Block := insert empty (col "x" Int32 0).
Definition x_Int64 : Block := insert empty (col "x" Int64 1).
Definition x_String : Block := insert empty (col "x" String_ 2).

(** Blocks whose columns are held by the handles [0], [1], [2]. *)
Definition xyz : Block :=
  insert (insert (insert empty (col "x" Int32 0)) (col "y" Int32 1)) (col "z" Int32 2).
Definition xy : Block := insert (insert empty (col "x" Int32 0)) (col "y" Int32 1).

(** A memory in which handle [c] designates a column of [l !! c] rows. *)
Definition rows_memory (l : list nat) : Memory :=
  {| object := fun c => Some (ColumnOther (default 0 (l !! c))); getOffsets := fun _ => [] |}.

(** The memory [m] but for the handle [c], which is null. *)
Definition null_at (c : ColumnPtr) (m : Memory) : Memory :=
  {| object := <[c := None]> (object m); getOffsets := getOffsets m |}.

(** *** Row counts *)

(** The sizes of the columns of a block, in order. *)
Definition sizes (m : Memory) (b : Block) : list nat :=
  (fun e => column_size m (column e)) <$> elements b.

(** No column handle of the block is null. *)
Definition no_null (m : Memory) (b : Block) : bool :=
  forallb (fun e => negb (isNull m (column e))) (elements b).

(** The elements in front of the first one whose handle is null: all of
    them, when no handle is null. *)
Fixpoint before_null (m : Memory) (l : list ColumnWithNameAndType)
    : list ColumnWithNameAndType :=
  match l with
  | [] => []
  | e :: l' => if isNull m (column e) then [] else e :: before_null m l'
  end.

(** The sizes of the columns in front of the first null handle. *)
Definition sizes_before_null (m : Memory) (b : Block) : list nat :=
  (fun e => column_size m (column e)) <$> before_null m (elements b).

(** The column at [i] is not empty and the next one has another size. *)
Definition mismatch_at (s : list nat) (i : nat) : Prop :=
  exists s1 s2, s !! i = Some s1 /\ s !! S i = Some s2 /\ s1 <> 0 /\ s2 <> s1.

(** Two sizes, neither zero, that differ. *)
Definition two_differing_nonzero (s : list nat) : Prop :=
  exists i j s1 s2,
    s !! i = Some s1 /\ s !! j = Some s2 /\ s1 <> 0 /\ s2 <> 0 /\ s1 <> s2.

(** [rows] as the specification words it: a mismatch is raised exactly for
    two differing non-zero sizes, and the result is otherwise the size that
    all columns have. *)
Definition rows_as_claimed : Prop :=
  forall m b,
    (throws (rows m b) SIZES_OF_COLUMNS_DOESNT_MATCH <-> two_differing_nonzero (sizes m b)) /\
    (~ two_differing_nonzero (sizes m b) ->
       exists r, rows m b = Ok r /\ forall s, s ∈ sizes m b -> s = r).

(** The offsets that a column has, whichever column holds them. *)
Definition contents (m : Memory) (c : nat) : option (list nat) :=
  getOffsets m <$> offsets_of m c.

(** The same columns are arrays in [m] as in [m0]. *)
Definition kinds (m m0 : Memory) : Prop :=
  forall c, is_Some (offsets_of m c) <-> is_Some (offsets_of m0 c).

(** *** insertUnique, as the specification words it *)

(** A column of that name among the elements decides between the no-op and
    the append. *)
Definition insertUnique_as_claimed : Prop :=
  forall b e, reachable false b ->
    (name e ∉ names b -> insertUnique b e = insert b e) /\
    (name e ∈ names b -> insertUnique b e = b).

(** *** Shared offsets *)

Section NestedGroups.

Variable extractNestedTableName : string -> string.

(** The nested table (the group) of an element, and whether its column is
    an array. *)
Definition group (e : ColumnWithNameAndType) : string :=
  extractNestedTableName (name e).

Definition is_array (m : Memory) (e : ColumnWithNameAndType) : bool :=
  bool_decide (is_Some (offsets_of m (column e))).

(** The first array column of the nested table [g] among [l]. *)
Fixpoint first_array (m : Memory) (l : list ColumnWithNameAndType) (g : string)
    : option ColumnPtr :=
  match l with
  | [] => None
  | e :: l' =>
      if is_array m e && bool_decide (group e = g) then Some (column e)
      else first_array m l' g
  end.

(** In memory [m], every array column among [l] has the offsets column of
    the first array column of its nested table; which columns are arrays is
    read in [m0]. *)
Definition sharing (m0 m : Memory) (l : list ColumnWithNameAndType) : Prop :=
  forall e o, e ∈ l -> offsets_of m (column e) = Some o ->
    exists first, first_array m0 l (group e) = Some first /\ offsets_of m first = Some o.

Definition shares_offsets (m : Memory) (b : Block) : Prop :=
  sharing m m (elements b).

(** No array column object is held by elements of two nested tables. *)
Definition unshared (m : Memory) (l : list ColumnWithNameAndType) : Prop :=
  forall e1 e2, e1 ∈ l -> e2 ∈ l ->
    is_array m e1 = true -> column e1 = column e2 -> group e1 = group e2.


End NestedGroups.

(** Modelled from the spec: the nested table of a column is the prefix that
    the names of its columns share; [DataTypeNested], which computes it, is
    not among the sources at hand. The prefix is taken to end before the
    first dot of the name, as in [table.column]. *)
Fixpoint nested_table_name (s : string) : string :=
  match s with
  | EmptyString => EmptyString
  | String c s' =>
      if Ascii.eqb c (Ascii.ascii_of_nat 46) then EmptyString else String c (nested_table_name s')
  end.

(** Three array columns whose offsets columns [10], [11], [12] have the
    same contents, and a block in which the third is a column of both
    nested tables. *)
Definition three_arrays : Memory :=
  {| object := fun c => Some (ColumnArray (10 + c)); getOffsets := fun _ => [2; 4; 7] |}.


(** Two nested tables with a column object each per element. *)
Definition two_tables_apart : Block :=
  insert (insert (insert (insert empty (col "g1.x" Int32 0)) (col "g2.y" Int32 1))
                 (col "g1.z" Int32 2)) (col "g2.w" Int32 3).

(** *** More of the class *)

(** The loop of [Block::operator=]: slot [pos] of the position index and the
    entry of the name are set for each node in turn. *)
Fixpoint assign_indexes (l : Container_t) (pos : nat)
    (by_position : list iterator) (by_name : gmap string iterator)
    : list iterator * gmap string iterator :=
  match l with
  | [] => (by_position, by_name)
  | (it, e) :: l' =>
      assign_indexes l' (S pos) (<[pos := it]> by_position) (<[name e := it]> by_name)
  end.

(** [Block::operator=]. The nodes of the copied list are new ones; a node
    of the copy carries here the identity that the node it copies has in
    [other], identities being compared within one block only. *)
Definition assign (this other : Block) : Block :=
  let data' := data other in
  let resized := resize (length data') singular (index_by_position this) in
  let indexes := assign_indexes data' 0 resized ∅ in
  {| data := data';
     index_by_position := indexes.1;
     index_by_name := indexes.2;
     next_node := next_node other |}.

(** [Block::Block(const Block &)] *)
Definition copy (other : Block) : Block := assign empty other.

(** [p] is the last position of a column named [n]. *)
Definition last_position (b : Block) (n : string) (p : nat) : Prop :=
  (exists e, elements b !! p = Some e /\ name e = n) /\
  forall q e, p < q -> elements b !! q = Some e -> name e <> n.

(** The loop of [Block::rowsInFirstColumn]: the first handle that is not
    null decides. *)
Fixpoint rowsInFirstColumn_from (m : Memory) (l : Container_t) : nat :=
  match l with
  | [] => 0
  | (_, e) :: l' =>
      if negb (isNull m (column e)) then column_size m (column e)
      else rowsInFirstColumn_from m l'
  end.

(** [Block::rowsInFirstColumn] *)
Definition rowsInFirstColumn (m : Memory) (b : Block) : nat :=
  match data b with
  | [] => 0
  | _ => rowsInFirstColumn_from m (data b)
  end.

Section CloneEmpty.

(** Modelled from the spec: [ColumnWithNameAndType::cloneEmpty], which is
    not among the sources at hand, gives an element of the same name and
    type that holds a new column without rows. It is taken as any function
    of the element and of a state [Heap] in which it allocates. *)
Context {Heap : Type}.
Variable cloneEmpty_element : Heap -> ColumnWithNameAndType -> Heap * ColumnWithNameAndType.

Fixpoint cloneEmpty_from (h : Heap) (l : Container_t) (res : Block) : Heap * Block :=
  match l with
  | [] => (h, res)
  | (_, e) :: l' =>
      let r := cloneEmpty_element h e in
      cloneEmpty_from r.1 l' (insert res r.2)
  end.

(** [Block::cloneEmpty] *)
Definition cloneEmpty (h : Heap) (b : Block) : Heap * Block :=
  cloneEmpty_from h (data b) empty.

End CloneEmpty.

Section Defaults.

(** Modelled from the spec: the type synthesizes a full column of a given
    length filled with its default value, or fails if it cannot; the
    functions of the type that do so are not among the sources at hand.
    Taken as any function that returns the handle of the column and the
    memory that holds it, or throws. *)
Variable createDefaultColumn : Memory -> IDataType -> nat -> result (Memory * ColumnPtr).

(** [Block::insertDefault]. The memory and the block are returned as they
    are when the call ends, also when it does not return. *)
Definition insertDefault (m : Memory) (b : Block) (n : string) (t : IDataType)
    : result unit * (Memory * Block) :=
  match rows m b with
  | Ok r =>
      match createDefaultColumn m t r with
      | Ok (m', c) => (Ok tt, (m', insert b {| column := c; type := t; name := n |}))
      | Throw code message => (Throw code message, (m, b))
      | Undefined => (Undefined, (m, b))
      | NullPointer => (NullPointer, (m, b))
      end
  | Throw code message => (Throw code message, (m, b))
  | Undefined => (Undefined, (m, b))
  | NullPointer => (NullPointer, (m, b))
  end.

(** [Block::addDefaults], over the names and types required. *)
Fixpoint addDefaults (m : Memory) (b : Block) (required_columns : list (string * IDataType))
    : result unit * (Memory * Block) :=
  match required_columns with
  | [] => (Ok tt, (m, b))
  | (n, t) :: rest =>
      if has b n then addDefaults m b rest
      else
        match insertDefault m b n t with
        | (Ok _, (m', b')) => addDefaults m' b' rest
        | failed => failed
        end
  end.

End Defaults.

(** A heap that counts the columns allocated, and an element clone that
    takes the next handle. *)
Definition clone_next (h : nat) (e : ColumnWithNameAndType) : nat * ColumnWithNameAndType :=
  (S h, {| column := h; type := type e; name := name e |}).

(** A default column of [n] rows for every type, at handle [7]. *)
Definition default_at_7 (m : Memory) (t : IDataType) (n : nat) : result (Memory * ColumnPtr) :=
  Ok ({| object := <[7 := Some (ColumnOther n)]> (object m); getOffsets := getOffsets m |}, 7).

End Block.

(** ** Facts about the speed limits *)

Module LimitsFacts.
Import Limits.
Local Open Scope Z_scope.

Lemma elapsed_seconds_not_corrected elapsed slept :
  slept <= elapsed -> elapsed_seconds_of elapsed slept = to_double 0.
Proof.
  intros H. unfold elapsed_seconds_of.
  destruct (slept >? elapsed) eqn:Hgt; [|done].
  apply Z.gtb_lt in Hgt. lia.
Qed.

(** While the recorded sleep does not exceed the elapsed time, a call checks
    nothing: it returns, and neither sleeps nor counts. *)
Lemma throttle_skips l read_rows read_bytes total_rows elapsed ctx :
  ThrottlerSleepMicroseconds ctx <= elapsed ->
  throttle l read_rows read_bytes total_rows elapsed ctx = (ctx, Returned).
Proof.
  intros H. unfold throttle.
  destruct (speed_is_checked l total_rows elapsed); [|done].
  by rewrite (elapsed_seconds_not_corrected _ _ H).
Qed.

(** When the pace is too high, the sleep is the time that is missing for the
    average to come down to the maximum, at most one second, and the counter
    grows by it. *)
Lemma limitProgressingSpeed_sleeps size speed elapsed ctx :
  let desired := wrap64 (size * 1000000) / speed in
  elapsed < desired ->
  limitProgressingSpeed size speed elapsed ctx
  = {| ThrottlerSleepMicroseconds :=
         wrap64 (ThrottlerSleepMicroseconds ctx + Z.min 1000000 (desired - elapsed));
       sleeps := Z.min 1000000 (desired - elapsed) :: sleeps ctx |}.
Proof.
  intros desired H. unfold limitProgressingSpeed. fold desired.
  destruct (desired >? elapsed) eqn:Hgt; [done|].
  rewrite Z.gtb_ltb in Hgt. apply Z.ltb_ge in Hgt. lia.
Qed.

Lemma limitProgressingSpeed_idle size speed elapsed ctx :
  wrap64 (size * 1000000) / speed <= elapsed ->
  limitProgressingSpeed size speed elapsed ctx = ctx.
Proof.
  intros H. unfold limitProgressingSpeed.
  destruct (_ >? elapsed) eqn:Hgt; [|done].
  apply Z.gtb_lt in Hgt. lia.
Qed.

(** C1 (the code departs from it). With a minimum of 1000 rows per second
    and no grace period, a call that reports 100 rows after 2 seconds, the
    sleep counter at zero, is to raise [TOO_SLOW]: the rate over the two
    seconds, 50 rows per second, is below the minimum. The code returns
    instead, whatever the other thresholds and arguments are, because the
    test that guards the computation of the elapsed seconds is the wrong
    way round and leaves them at zero. *)
Theorem throttle_min_speed_example maxs minb maxb maxt read_bytes total_rows done_sleeps :
  throttle (min_speed_1000 maxs minb maxb maxt) 100 read_bytes total_rows 2000000
           {| ThrottlerSleepMicroseconds := 0; sleeps := done_sleeps |}
  = ({| ThrottlerSleepMicroseconds := 0; sleeps := done_sleeps |}, Returned) /\
  dlt (ddiv (to_double 100) (ddiv (to_double (2000000 - 0)) (to_double 1000000)))
      (to_double 1000) = true.
Proof. split; [by apply throttle_skips|by vm_compute]. Qed.

(** C2 (the code departs from it). The checks are to run on the elapsed time
    less the time slept, and not at all when that difference is zero or
    negative. The code does the reverse: whenever the time slept is at most
    the elapsed time, no check runs, though the difference is positive as
    soon as the two differ; and when the time slept exceeds the elapsed
    time, the checks run on the difference taken in unsigned 64-bit
    arithmetic: one microsecond elapsed and two slept make some 1.8e13
    seconds, and 100 rows read are then too slow for a minimum of 1000. *)
Theorem throttle_elapsed_correction l read_rows read_bytes total_rows elapsed ctx :
  ThrottlerSleepMicroseconds ctx <= elapsed ->
  throttle l read_rows read_bytes total_rows elapsed ctx = (ctx, Returned) /\
  elapsed_seconds_of 1 2 = ddiv (to_double (2 ^ 64 - 1)) (to_double 1000000) /\
  throttle (min_speed_1000 0 0 0 {| totalMicroseconds := 0 |}) 100 0 0 1
           {| ThrottlerSleepMicroseconds := 2; sleeps := [] |}
  = ({| ThrottlerSleepMicroseconds := 2; sleeps := [] |},
     Exception TOO_SLOW
       (TooSlowRows (ddiv (to_double 100) (elapsed_seconds_of 1 2)) 1000)).
Proof.
  intros H. split; [by apply throttle_skips|]. split; by vm_compute.
Qed.

(** Half a second slept out of two seconds elapsed: no check runs. *)
Lemma throttle_elapsed_correction_witness :
  throttle (min_speed_1000 0 0 0 {| totalMicroseconds := 0 |}) 100 0 0 2000000
           {| ThrottlerSleepMicroseconds := 500000; sleeps := [500000] |}
  = ({| ThrottlerSleepMicroseconds := 500000; sleeps := [500000] |}, Returned).
Proof.
  apply (throttle_elapsed_correction
           (min_speed_1000 0 0 0 {| totalMicroseconds := 0 |}) 100 0 0 2000000
           {| ThrottlerSleepMicroseconds := 500000; sleeps := [500000] |}).
  simpl. lia.
Defined.

(** C3 (the code departs from it). With a maximum of 100 rows per second, a
    call that reports 1000 rows after one second is to sleep. The sleep
    would be [limitProgressingSpeed]'s: one second, the cap on the nine
    seconds that are missing, counted in [ThrottlerSleepMicroseconds]
    ([limitProgressingSpeed_sleeps] is the general statement). The code
    never gets there with the counter at zero: it returns without a sleep,
    for the reason given for C1. *)
Theorem throttle_max_speed_example mins minb maxb maxt timeout read_bytes total_rows
    done_sleeps :
  throttle (max_speed_100 mins minb maxb maxt timeout) 1000 read_bytes total_rows 1000000
           {| ThrottlerSleepMicroseconds := 0; sleeps := done_sleeps |}
  = ({| ThrottlerSleepMicroseconds := 0; sleeps := done_sleeps |}, Returned) /\
  limitProgressingSpeed 1000 100 1000000
           {| ThrottlerSleepMicroseconds := 0; sleeps := done_sleeps |}
  = {| ThrottlerSleepMicroseconds := 1000000; sleeps := 1000000 :: done_sleeps |}.
Proof. split; [by apply throttle_skips|done]. Qed.

End LimitsFacts.

(** ** Facts about blocks *)

Module BlockFacts.
Import Block.

(** *** The loops that move the slots of the position index *)

Lemma shift_up_lookup (i position : nat) (w : list nat) (k : nat) :
  i < length w ->
  shift_up i position w !! k
  = if decide (position < k <= i) then w !! (k - 1) else w !! k.
Proof.
  revert w. induction i as [|j IH]; intros w Hi; simpl.
  - case_decide; [lia|done].
  - destruct (decide (position < S j)) as [Hlt|Hge].
    + rewrite IH; [|rewrite length_insert; lia].
      destruct (lookup_lt_is_Some_2 w j) as [d Hd]; [lia|]. rewrite Hd. simpl.
      destruct (decide (k = S j)) as [->|Hk].
      * rewrite decide_False; [|lia]. rewrite decide_True; [|lia].
        rewrite list_lookup_insert_eq; [|lia]. by rewrite Nat.sub_1_r.
      * repeat case_decide; try lia; rewrite list_lookup_insert_ne; (done || lia).
    + rewrite decide_False; [done|lia].
Qed.

Lemma shift_down_lookup (count i : nat) (w : list nat) (k : nat) :
  i + count < length w ->
  shift_down count i w !! k
  = if decide (i <= k < i + count) then w !! S k else w !! k.
Proof.
  revert i w. induction count as [|c IH]; intros i w Hi; simpl.
  - case_decide; [lia|done].
  - rewrite IH; [|rewrite length_insert; lia].
    destruct (lookup_lt_is_Some_2 w (S i)) as [d Hd]; [lia|]. rewrite Hd. simpl.
    destruct (decide (k = i)) as [->|Hk].
    + rewrite decide_False; [|lia]. rewrite decide_True; [|lia].
      rewrite list_lookup_insert_eq; [done|lia].
    + repeat case_decide; try lia; rewrite list_lookup_insert_ne; (done || lia).
Qed.

Lemma length_shift_up i position w : length (shift_up i position w) = length w.
Proof.
  revert w. induction i as [|j IH]; intros w; simpl; [done|].
  case_decide; [|done]. by rewrite IH, length_insert.
Qed.

Lemma length_shift_down count i w : length (shift_down count i w) = length w.
Proof.
  revert i w. induction count as [|c IH]; intros i w; simpl; [done|].
  by rewrite IH, length_insert.
Qed.

(** Making room for a slot: the loop of the positional insert. *)
Lemma insert_slot_spec (v : list nat) (position it : nat) :
  position < length v ->
  let resized := resize (length v + 1) singular v in
  <[position := it]> (shift_up (length resized - 1) position resized)
  = take position v ++ it :: drop position v.
Proof.
  intros Hp resized.
  assert (Hres : resized = v ++ [singular]).
  { unfold resized. rewrite resize_ge; [|lia].
    by replace (length v + 1 - length v) with 1 by lia. }
  assert (Hlen : length resized = S (length v)).
  { rewrite Hres, length_app. simpl. lia. }
  apply list_eq. intros k.
  destruct (decide (k = position)) as [->|Hk].
  - rewrite list_lookup_insert_eq; [|rewrite length_shift_up; lia].
    rewrite lookup_app_r, length_take; [|rewrite length_take; lia].
    by replace (position - position `min` length v) with 0 by lia.
  - rewrite list_lookup_insert_ne; [|done].
    rewrite shift_up_lookup; [|lia]. rewrite Hlen, Hres.
    destruct (decide (k < position)) as [Hlt|Hge].
    + rewrite decide_False; [|lia].
      rewrite lookup_app_l; [|lia].
      rewrite lookup_app_l; [|rewrite length_take; lia].
      by rewrite lookup_take_lt.
    + rewrite (lookup_app_r (take _ _)), length_take; [|rewrite length_take; lia].
      replace (k - position `min` length v) with (S (k - position - 1)) by lia.
      simpl. rewrite lookup_drop.
      replace (position + (k - position - 1)) with (k - 1) by lia.
      case_decide.
      * rewrite lookup_app_l; [done|lia].
      * rewrite !lookup_ge_None_2; [done|lia|rewrite length_app; simpl; lia].
Qed.

(** Closing a slot: the loop of both erasures. *)
Lemma erase_slot_spec (v : list nat) (position : nat) :
  position < length v -> erase_slot position v = delete position v.
Proof.
  intros Hp. unfold erase_slot.
  rewrite resize_le; [|rewrite length_shift_down; lia].
  apply list_eq. intros k.
  destruct (decide (k < length v - 1)) as [Hk|Hk].
  - rewrite lookup_take_lt; [|done].
    rewrite shift_down_lookup; [|lia].
    destruct (decide (k < position)).
    + rewrite decide_False; [|lia]. by rewrite list_lookup_delete_lt.
    + rewrite decide_True; [|lia]. rewrite list_lookup_delete_ge; [done|lia].
  - rewrite lookup_take_ge; [|lia].
    rewrite lookup_ge_None_2; [done|]. rewrite length_delete; [lia|].
    apply lookup_lt_is_Some_2. lia.
Qed.

(** *** The list primitives *)

Lemma distance_lookup (l : list (nat * ColumnWithNameAndType)) it p :
  distance l it = Some p -> exists e, l !! p = Some (it, e) /\ deref l it = Some e.
Proof.
  revert p. induction l as [|[i e] l IH]; intros p; simpl; [done|].
  destruct (decide (i = it)) as [->|Hne].
  - intros [= <-]. by exists e.
  - destruct (distance l it) as [q|] eqn:Hq; simpl; [|done].
    intros [= <-]. destruct (IH q eq_refl) as (e' & ? & ?). by exists e'.
Qed.

Lemma lookup_distance (l : list (nat * ColumnWithNameAndType)) it p :
  NoDup l.*1 -> l.*1 !! p = Some it -> distance l it = Some p.
Proof.
  revert p. induction l as [|[i e] l IH]; intros p Hnd Hp; simpl in *; [done|].
  apply NoDup_cons in Hnd as [Hi Hnd].
  destruct p as [|p]; simpl in Hp.
  - injection Hp as ->. by rewrite decide_True.
  - rewrite decide_False.
    + by rewrite (IH p Hnd Hp).
    + intros ->. apply Hi. by eapply list_elem_of_lookup_2.
Qed.

Lemma list_insert_before_spec (l : list (nat * ColumnWithNameAndType)) it p x :
  distance l it = Some p -> list_insert_before l it x = Some (take p l ++ x :: drop p l).
Proof.
  revert p. induction l as [|[i e] l IH]; intros p; simpl; [done|].
  destruct (decide (i = it)) as [->|Hne].
  - by intros [= <-].
  - destruct (distance l it) as [q|] eqn:Hq; simpl; [|done].
    intros [= <-]. by rewrite (IH q eq_refl).
Qed.

Lemma list_erase_spec (l : list (nat * ColumnWithNameAndType)) it p :
  distance l it = Some p -> list_erase l it = Some (delete p l).
Proof.
  revert p. induction l as [|[i e] l IH]; intros p; simpl; [done|].
  destruct (decide (i = it)) as [->|Hne].
  - by intros [= <-].
  - destruct (distance l it) as [q|] eqn:Hq; simpl; [|done].
    intros [= <-]. by rewrite (IH q eq_refl).
Qed.

(** *** The representation invariant is kept *)

Lemma wf_empty : wf empty.
Proof. split; simpl; [done|constructor|constructor|]. intros n it. by rewrite lookup_empty. Qed.

Lemma wf_columns b : wf b -> columns b = length (data b).
Proof. intros Hwf. unfold columns. by rewrite (wf_position b Hwf), length_fmap. Qed.

Lemma insert_inserted b e : wf b -> insert b e = inserted b (columns b) e.
Proof.
  intros Hwf. unfold insert, inserted. rewrite (wf_columns b Hwf) at 1 2.
  unfold columns. by rewrite !take_ge, !drop_ge by lia.
Qed.

Lemma insert_at_Ok b position e :
  wf b -> position <= columns b -> insert_at b position e = Ok (inserted b position e).
Proof.
  intros Hwf Hp. unfold insert_at, columns in *.
  rewrite decide_False by lia.
  destruct (decide (position = length (index_by_position b))) as [->|Hne].
  - f_equal. by apply insert_inserted.
  - destruct (lookup_lt_is_Some_2 (index_by_position b) position) as [at_position Hat]; [lia|].
    rewrite Hat. simpl.
    assert (Hd : distance (data b) at_position = Some position).
    { apply lookup_distance; [apply Hwf|]. by rewrite <- (wf_position b Hwf). }
    rewrite (list_insert_before_spec _ _ _ _ Hd). simpl.
    unfold inserted. do 2 f_equal.
    apply insert_slot_spec. lia.
Qed.

Lemma wf_inserted b position e : wf b -> wf (inserted b position e).
Proof.
  intros [Hpos Hnd Hnext Hname]. split; simpl.
  - rewrite Hpos, fmap_app, fmap_cons, fmap_take, fmap_drop. done.
  - rewrite fmap_app, fmap_cons, fmap_take, fmap_drop. simpl.
    rewrite <- Permutation_middle, take_drop.
    apply NoDup_cons. split; [|done].
    intros Hin. eapply Forall_forall in Hnext; [|done]. lia.
  - rewrite fmap_app, fmap_cons, fmap_take, fmap_drop. simpl.
    rewrite <- Permutation_middle, take_drop.
    constructor; [lia|]. eapply Forall_impl; [done|]. simpl. lia.
  - intros n it Hn.
    destruct (decide (name e = n)) as [<-|Hne].
    + rewrite lookup_insert_eq in Hn. injection Hn as <-.
      exists e. split; [|done]. set_solver.
    + rewrite lookup_insert_ne in Hn by done.
      destruct (Hname n it Hn) as (e' & Hin & Hn').
      exists e'. split; [|done].
      rewrite <- (take_drop position (data b)) in Hin.
      apply elem_of_app in Hin as [Hin|Hin]; apply elem_of_app; [by left|].
      right. by apply elem_of_cons; right.
Qed.

Lemma erase_Ok b position it e :
  wf b -> data b !! position = Some (it, e) -> is_Some (index_by_name b !! name e) ->
  erase b position = Ok (erased b position (name e)).
Proof.
  intros Hwf Hp [it' Hn]. unfold erase.
  assert (Hlt : position < length (index_by_position b)).
  { rewrite (wf_position b Hwf), length_fmap. by eapply lookup_lt_Some. }
  rewrite decide_False by lia.
  assert (Hat : index_by_position b !! position = Some it).
  { by rewrite (wf_position b Hwf), list_lookup_fmap, Hp. }
  rewrite Hat. simpl.
  assert (Hd : distance (data b) it = Some position).
  { apply lookup_distance; [apply Hwf|]. by rewrite <- (wf_position b Hwf). }
  destruct (distance_lookup _ _ _ Hd) as (e' & Hp' & ->).
  assert (e' = e) as -> by congruence. simpl.
  rewrite Hn. simpl.
  rewrite (list_erase_spec _ _ _ Hd). simpl.
  unfold erased. by rewrite erase_slot_spec.
Qed.

Lemma erase_name_Ok b n it :
  wf b -> index_by_name b !! n = Some it ->
  exists position e, data b !! position = Some (it, e) /\ name e = n /\
    erase_name b n = Ok (erased b position n).
Proof.
  intros Hwf Hn. unfold erase_name. rewrite Hn.
  destruct (wf_name b Hwf n it Hn) as (e & Hin & He).
  apply list_elem_of_lookup_1 in Hin as [position Hp].
  assert (Hat : (data b).*1 !! position = Some it).
  { by rewrite list_lookup_fmap, Hp. }
  assert (Hd : distance (data b) it = Some position).
  { apply lookup_distance; [apply Hwf|done]. }
  exists position, e. split; [done|]. split; [done|].
  rewrite Hd. simpl. rewrite (list_erase_spec _ _ _ Hd). simpl.
  unfold erased. rewrite erase_slot_spec; [done|].
  rewrite (wf_position b Hwf), length_fmap. by eapply lookup_lt_Some.
Qed.

Lemma wf_erased b position it e :
  wf b -> data b !! position = Some (it, e) -> wf (erased b position (name e)).
Proof.
  intros [Hpos Hnd Hnext Hname] Hp. split; simpl.
  - by rewrite Hpos, list_fmap_delete.
  - rewrite list_fmap_delete. eapply sublist_NoDup; [done|apply sublist_delete].
  - rewrite list_fmap_delete. by apply Forall_delete.
  - intros n it' Hn.
    apply lookup_delete_Some in Hn as [Hne Hn].
    destruct (Hname n it' Hn) as (e' & Hin & Hn').
    exists e'. split; [|done].
    apply list_elem_of_lookup_1 in Hin as [q Hq].
    assert (q <> position) by (intros ->; congruence).
    destruct (decide (q < position)).
    + apply (list_elem_of_lookup_2 _ q). by rewrite list_lookup_delete_lt.
    + apply (list_elem_of_lookup_2 _ (q - 1)).
      rewrite list_lookup_delete_ge by lia. by replace (S (q - 1)) with q by lia.
Qed.

Lemma erase_Undefined b position it e :
  wf b -> data b !! position = Some (it, e) -> index_by_name b !! name e = None ->
  erase b position = Undefined.
Proof.
  intros Hwf Hp Hn. unfold erase.
  assert (Hlt : position < length (index_by_position b)).
  { rewrite (wf_position b Hwf), length_fmap. by eapply lookup_lt_Some. }
  rewrite decide_False by lia.
  assert (Hat : index_by_position b !! position = Some it).
  { by rewrite (wf_position b Hwf), list_lookup_fmap, Hp. }
  rewrite Hat. simpl.
  assert (Hd : distance (data b) it = Some position).
  { apply lookup_distance; [apply Hwf|]. by rewrite <- (wf_position b Hwf). }
  destruct (distance_lookup _ _ _ Hd) as (e' & Hp' & ->).
  assert (e' = e) as -> by congruence. simpl.
  by rewrite Hn.
Qed.

Lemma insert_at_inv b position e b' :
  wf b -> insert_at b position e = Ok b' ->
  position <= columns b /\ b' = inserted b position e.
Proof.
  intros Hwf Hins.
  destruct (decide (position <= columns b)) as [Hle|Hgt].
  - rewrite insert_at_Ok in Hins by done. by injection Hins as <-.
  - unfold insert_at, columns in *. by rewrite decide_True in Hins by lia.
Qed.

Lemma erase_inv b position b' :
  wf b -> erase b position = Ok b' ->
  exists it e, data b !! position = Some (it, e) /\
    is_Some (index_by_name b !! name e) /\ b' = erased b position (name e).
Proof.
  intros Hwf Her.
  destruct (data b !! position) as [[it e]|] eqn:Hp.
  - exists it, e. split; [done|].
    destruct (index_by_name b !! name e) as [it'|] eqn:Hn.
    + rewrite (erase_Ok b position it e) in Her by (done || by rewrite Hn).
      injection Her as <-. by split; [eexists|].
    + by rewrite (erase_Undefined b position it e) in Her.
  - apply lookup_ge_None_1 in Hp. rewrite <- (wf_columns b Hwf) in Hp.
    unfold erase, columns in *. by rewrite decide_True in Her by lia.
Qed.

Lemma erase_name_inv b n b' :
  wf b -> erase_name b n = Ok b' ->
  exists position it e, index_by_name b !! n = Some it /\
    data b !! position = Some (it, e) /\ name e = n /\ b' = erased b position n.
Proof.
  intros Hwf Her.
  destruct (index_by_name b !! n) as [it|] eqn:Hn.
  - destruct (erase_name_Ok b n it Hwf Hn) as (position & e & Hp & He & Heq).
    rewrite Heq in Her. injection Her as <-. by exists position, it, e.
  - unfold erase_name in Her. by rewrite Hn in Her.
Qed.

(** *** Access in a well-formed block *)

Lemma getByPosition_Ok b position e :
  wf b -> elements b !! position = Some e -> getByPosition b position = Ok e.
Proof.
  intros Hwf He. unfold elements in He. rewrite list_lookup_fmap in He.
  destruct (data b !! position) as [[it e']|] eqn:Hp; simplify_eq/=.
  unfold getByPosition.
  assert (Hlt : position < length (index_by_position b)).
  { rewrite (wf_position b Hwf), length_fmap. by eapply lookup_lt_Some. }
  rewrite decide_False by lia.
  assert (Hat : index_by_position b !! position = Some it).
  { by rewrite (wf_position b Hwf), list_lookup_fmap, Hp. }
  rewrite Hat. simpl.
  assert (Hd : distance (data b) it = Some position).
  { apply lookup_distance; [apply Hwf|]. by rewrite <- (wf_position b Hwf). }
  destruct (distance_lookup _ _ _ Hd) as (e'' & Hp' & ->). simpl. congruence.
Qed.

Lemma getByPosition_throws b position :
  columns b <= position -> throws (getByPosition b position) POSITION_OUT_OF_BOUND.
Proof.
  intros Hp. unfold getByPosition, columns in *. rewrite decide_True by done.
  by eexists.
Qed.

Lemma by_name_Ok b n it :
  wf b -> index_by_name b !! n = Some it ->
  exists position e, data b !! position = Some (it, e) /\ name e = n /\
    getPositionByName b n = Ok position /\ getByName b n = Ok e.
Proof.
  intros Hwf Hn.
  destruct (wf_name b Hwf n it Hn) as (e & Hin & He).
  apply list_elem_of_lookup_1 in Hin as [position Hp].
  assert (Hat : (data b).*1 !! position = Some it).
  { by rewrite list_lookup_fmap, Hp. }
  assert (Hd : distance (data b) it = Some position).
  { apply lookup_distance; [apply Hwf|done]. }
  destruct (distance_lookup _ _ _ Hd) as (e' & Hp' & Hde).
  assert (e' = e) as -> by congruence.
  exists position, e. unfold getPositionByName, getByName. rewrite Hn, Hd, Hde.
  done.
Qed.

(** *** Every element indexed *)

Lemma indexed_empty : indexed empty.
Proof. intros it e Hin. by apply elem_of_nil in Hin. Qed.

Lemma has_false b n : has b n = false <-> index_by_name b !! n = None.
Proof.
  unfold has. rewrite bool_decide_eq_false. rewrite <- eq_None_not_Some. done.
Qed.

Lemma has_true b n : has b n = true <-> is_Some (index_by_name b !! n).
Proof. unfold has. by rewrite bool_decide_eq_true. Qed.

Lemma indexed_inserted b position e :
  indexed b -> has b (name e) = false -> indexed (inserted b position e).
Proof.
  intros Hidx Hhas it e' Hin. simpl in *.
  apply has_false in Hhas.
  assert (Hcases : (it, e') = (next_node b, e) \/ (it, e') ∈ data b).
  { rewrite <- (take_drop position (data b)).
    apply elem_of_app in Hin as [Hin|Hin]; [right; apply elem_of_app; by left|].
    apply elem_of_cons in Hin as [Hin|Hin]; [by left|].
    right; apply elem_of_app; by right. }
  destruct Hcases as [[= -> ->]|Hold].
  - by rewrite lookup_insert_eq.
  - specialize (Hidx it e' Hold).
    rewrite lookup_insert_ne; [done|]. intros Heq. congruence.
Qed.

Lemma indexed_erased b position it e :
  wf b -> indexed b -> data b !! position = Some (it, e) ->
  indexed (erased b position (name e)).
Proof.
  intros Hwf Hidx Hp it' e' Hin. simpl in *.
  apply list_elem_of_lookup_1 in Hin as [q Hq].
  assert (Hq' : exists q', q' <> position /\ data b !! q' = Some (it', e')).
  { destruct (decide (q < position)).
    - exists q. rewrite list_lookup_delete_lt in Hq by done. split; [lia|done].
    - exists (S q). rewrite list_lookup_delete_ge in Hq by lia. split; [lia|done]. }
  destruct Hq' as (q' & Hne & Hq').
  assert (Hold : index_by_name b !! name e' = Some it').
  { apply Hidx. by eapply list_elem_of_lookup_2. }
  rewrite lookup_delete_ne; [done|].
  intros Heq. rewrite <- Heq in Hold.
  assert (Hit : index_by_name b !! name e = Some it).
  { apply Hidx. by eapply list_elem_of_lookup_2. }
  assert (it' = it) as -> by congruence.
  apply Hne. eapply (NoDup_lookup _ _ _ it (wf_nodup b Hwf)).
  - by rewrite list_lookup_fmap, Hq'.
  - by rewrite list_lookup_fmap, Hp.
Qed.

Lemma indexed_names b n :
  wf b -> indexed b -> (n ∈ names b <-> has b n = true).
Proof.
  intros Hwf Hidx. rewrite has_true. unfold names, elements. split.
  - intros Hin. apply list_elem_of_fmap in Hin as (e & -> & Hin).
    apply list_elem_of_fmap in Hin as ([it e'] & -> & Hin). simpl.
    rewrite (Hidx it e' Hin). by eexists.
  - intros [it Hn]. destruct (wf_name b Hwf n it Hn) as (e & Hin & <-).
    apply list_elem_of_fmap. exists e. split; [done|].
    apply list_elem_of_fmap. by exists (it, e).
Qed.

(** *** Sequences of operations *)

Lemma reachable_wf unique b : reachable unique b -> wf b.
Proof.
  induction 1 as [|b e _ IH _|b position e b' _ IH _ Hins|b position b' _ IH Her|b n b' _ IH Her].
  - apply wf_empty.
  - rewrite insert_inserted by done. by apply wf_inserted.
  - apply insert_at_inv in Hins as [_ ->]; [|done]. by apply wf_inserted.
  - apply erase_inv in Her as (it & e & Hp & _ & ->); [|done]. by eapply wf_erased.
  - apply erase_name_inv in Her as (position & it & e & _ & Hp & <- & ->); [|done].
    by eapply wf_erased.
Qed.

Lemma reachable_indexed b : reachable true b -> indexed b.
Proof.
  induction 1 as [|b e Hr IH Hu|b position e b' Hr IH Hu Hins|b position b' Hr IH Her|b n b' Hr IH Her];
    [apply indexed_empty|pose proof (reachable_wf _ _ Hr) as Hwf..].
  - rewrite insert_inserted by done. apply indexed_inserted; auto.
  - apply insert_at_inv in Hins as [_ ->]; [|done]. apply indexed_inserted; auto.
  - apply erase_inv in Her as (it & e & Hp & _ & ->); [|done].
    eapply indexed_erased; eauto.
  - apply erase_name_inv in Her as (position & it & e & _ & Hp & <- & ->); [|done].
    eapply indexed_erased; eauto.
Qed.

(** The operations are defined on the blocks they build: an erasure is
    undefined only when the element at the position has lost its entry in
    the name index to a column of the same name. *)
Lemma erase_name_defined unique b n : reachable unique b -> erase_name b n <> Undefined.
Proof.
  intros Hwf%reachable_wf.
  destruct (index_by_name b !! n) as [it|] eqn:Hn.
  - destruct (erase_name_Ok b n it Hwf Hn) as (position & e & _ & _ & ->). done.
  - unfold erase_name. by rewrite Hn.
Qed.

Lemma erase_defined b position : reachable true b -> erase b position <> Undefined.
Proof.
  intros Hr. pose proof (reachable_wf _ _ Hr) as Hwf.
  pose proof (reachable_indexed _ Hr) as Hidx.
  destruct (data b !! position) as [[it e]|] eqn:Hp.
  - rewrite (erase_Ok b position it e); [done..|].
    exists it. apply Hidx. by eapply list_elem_of_lookup_2.
  - apply lookup_ge_None_1 in Hp. rewrite <- (wf_columns b Hwf) in Hp.
    unfold erase, columns in *. by rewrite decide_True by lia.
Qed.

Lemma aa_erased_eq : erase aa 0 = Ok aa_erased.
Proof. vm_compute. reflexivity. Qed.

(** C6 (amended). After any sequence of insertions, positional insertions
    and erasures from the empty block in which no insertion adds a name
    that the block already has, every name of the block is found by
    [getPositionByName] at a position where [getByPosition] yields an
    element of that name, and the position index has as many slots as the
    block has elements. *)
Theorem index_consistency b : reachable true b -> index_consistent b.
Proof.
  intros Hr. pose proof (reachable_wf _ _ Hr) as Hwf.
  pose proof (reachable_indexed _ Hr) as Hidx. split.
  - intros n Hn. apply indexed_names in Hn; [|done..].
    apply has_true in Hn as [it Hn].
    destruct (by_name_Ok b n it Hwf Hn) as (position & e & Hp & He & Hpos & _).
    exists position, e. split; [done|]. split; [|done].
    apply getByPosition_Ok; [done|]. unfold elements. by rewrite list_lookup_fmap, Hp.
  - unfold elements. by rewrite (wf_position b Hwf), !length_fmap.
Qed.

Lemma index_consistency_witness : index_consistent abc.
Proof.
  apply index_consistency. unfold abc.
  repeat (apply reach_insert; [|reflexivity]). apply reach_empty.
Defined.

(** C6 does not hold for all sequences: append two columns named [a] and
    erase position 0. A column named [a] is left, and the name index has no
    entry for it: [getPositionByName] throws. *)
Lemma index_inconsistent_after_duplicate :
  ~ (forall b, reachable false b -> index_consistent b).
Proof.
  intros H.
  assert (Hr : reachable false aa_erased).
  { eapply reach_erase; [|apply aa_erased_eq].
    unfold aa. repeat (apply reach_insert; [|done]). apply reach_empty. }
  destruct (H _ Hr) as [Hnames _].
  destruct (Hnames "a") as (position & e & Hpos & _).
  - vm_compute. left.
  - vm_compute in Hpos. discriminate.
Qed.

(** *** Insertion at a position *)


Lemma columns_elements b : wf b -> columns b = length (elements b).
Proof. intros Hwf. unfold elements. by rewrite length_fmap, wf_columns. Qed.



(** *** Structural comparison *)

(** Both comparators: the loop returns, and says [true] exactly when every
    pair of types it visits passes [same]. *)
Lemma structure_loop_spec same lhs rhs count i :
  wf lhs -> wf rhs -> i + count <= columns lhs -> i + count <= columns rhs ->
  exists r, structure_loop same lhs rhs count i = Ok r /\
    (r = true <->
     forall k l r', i <= k < i + count ->
       elements lhs !! k = Some l -> elements rhs !! k = Some r' ->
       same (type l) (type r') = true).
Proof.
  intros Hl Hr. revert i. induction count as [|count IH]; intros i Hil Hir; simpl.
  - exists true. split; [done|]. split; [|done]. intros _ k l r' Hk. lia.
  - rewrite (columns_elements _ Hl) in Hil. rewrite (columns_elements _ Hr) in Hir.
    destruct (lookup_lt_is_Some_2 (elements lhs) i) as [l Hl']; [lia|].
    destruct (lookup_lt_is_Some_2 (elements rhs) i) as [r Hr']; [lia|].
    rewrite (getByPosition_Ok lhs i l), (getByPosition_Ok rhs i r) by done. simpl.
    destruct (same (type l) (type r)) eqn:Hsame.
    + destruct (IH (S i)) as (res & Hres & Hiff).
      { rewrite (columns_elements _ Hl). lia. }
      { rewrite (columns_elements _ Hr). lia. }
      exists res. split; [done|]. rewrite Hiff. split.
      * intros H k l0 r0 Hk Hl0 Hr0.
        destruct (decide (k = i)) as [->|Hne]; [congruence|].
        apply (H k); (done || lia).
      * intros H k l0 r0 Hk. apply H. lia.
    + exists false. split; [done|]. split; [done|].
      intros H. specialize (H i l r). rewrite Hsame in H. apply H; (done || lia).
Qed.

(** C7. [blocksHaveEqualStructure] returns [true] exactly when the two
    blocks have as many columns and the names of the types agree at every
    position; [blocksHaveCompatibleStructure], exactly when they have as
    many columns and at every position both types behave as numbers, or
    both as strings, or their names agree. So [(x : Int32)] and
    [(x : Int64)] are compatible and not equal, and [(x : Int32)] and
    [(x : String)] are neither. *)
Theorem structure_comparators lhs rhs :
  wf lhs -> wf rhs ->
  (exists r, blocksHaveEqualStructure lhs rhs = Ok r /\
     (r = true <->
      columns lhs = columns rhs /\
      forall i l r', elements lhs !! i = Some l -> elements rhs !! i = Some r' ->
        getName (type l) = getName (type r'))) /\
  (exists r, blocksHaveCompatibleStructure lhs rhs = Ok r /\
     (r = true <->
      columns lhs = columns rhs /\
      forall i l r', elements lhs !! i = Some l -> elements rhs !! i = Some r' ->
        (behavesAsNumber (type l) = true /\ behavesAsNumber (type r') = true) \/
        (behavesAsString (type l) = true /\ behavesAsString (type r') = true) \/
        getName (type l) = getName (type r'))) /\
  (blocksHaveCompatibleStructure x_Int32 x_Int64 = Ok true /\
   blocksHaveEqualStructure x_Int32 x_Int64 = Ok false /\
   blocksHaveCompatibleStructure x_Int32 x_String = Ok false /\
   blocksHaveEqualStructure x_Int32 x_String = Ok false).
Proof.
  intros Hl Hr.
  assert (Hloop : forall same,
    exists r, (if negb (columns rhs =? columns lhs) then Ok false
               else structure_loop same lhs rhs (columns lhs) 0) = Ok r /\
      (r = true <->
       columns lhs = columns rhs /\
       forall i l r', elements lhs !! i = Some l -> elements rhs !! i = Some r' ->
         same (type l) (type r') = true)).
  { intros same. destruct (columns rhs =? columns lhs) eqn:Hc; simpl.
    - apply Nat.eqb_eq in Hc.
      destruct (structure_loop_spec same lhs rhs (columns lhs) 0 Hl Hr)
        as (r & Hres & Hiff); [lia..|].
      exists r. split; [done|]. rewrite Hiff. split.
      + intros H. split; [done|]. intros i l r' Hl' Hr'. apply (H i); [|done..].
        apply lookup_lt_Some in Hl'. rewrite <- (columns_elements _ Hl) in Hl'. lia.
      + intros [_ H] k l r' _. apply H.
    - apply Nat.eqb_neq in Hc. exists false. split; [done|]. split; [done|].
      intros [Heq _]. congruence. }
  split; [|split].
  - destruct (Hloop (fun l r => bool_decide (getName l = getName r))) as (r & Hres & Hiff).
    exists r. split; [done|]. rewrite Hiff.
    apply and_iff_compat_l. split; intros H i l r' Hl' Hr'.
    + by eapply bool_decide_eq_true_1, H.
    + by eapply bool_decide_eq_true_2, H.
  - destruct (Hloop typesAreCompatible) as (r & Hres & Hiff).
    exists r. split; [done|]. rewrite Hiff.
    apply and_iff_compat_l.
    assert (Hcompat : forall a b : IDataType, typesAreCompatible a b = true <->
      (behavesAsNumber a = true /\ behavesAsNumber b = true) \/
      (behavesAsString a = true /\ behavesAsString b = true) \/
      getName a = getName b).
    { intros a b. unfold typesAreCompatible.
      destruct (behavesAsNumber a), (behavesAsNumber b),
        (behavesAsString a), (behavesAsString b); simpl;
        try (split; [intros _|done]; auto; fail);
        (case_bool_decide; split; [auto|done| |]); intros; intuition congruence. }
    split; intros H i l r' Hl' Hr'; eapply Hcompat, H; done.
  - by vm_compute.
Qed.

Lemma structure_comparators_witness :
  exists r, blocksHaveEqualStructure x_Int32 x_Int64 = Ok r.
Proof.
  destruct (structure_comparators x_Int32 x_Int64) as ((r & Hr & _) & _).
  - unfold x_Int32. rewrite insert_inserted; [apply wf_inserted|]; apply wf_empty.
  - unfold x_Int64. rewrite insert_inserted; [apply wf_inserted|]; apply wf_empty.
  - by exists r.
Defined.

(** *** Rows *)

Lemma before_null_all m (l : list ColumnWithNameAndType) :
  forallb (fun e => negb (isNull m (column e))) l = true -> before_null m l = l.
Proof.
  induction l as [|e l IH]; simpl; [done|].
  intros [He Hl]%andb_true_iff. apply negb_true_iff in He. rewrite He. by rewrite IH.
Qed.

Lemma rows_from_spec m fn l res :
  (throws (rows_from m fn l res) SIZES_OF_COLUMNS_DOESNT_MATCH <->
     exists i, mismatch_at
       (res :: ((fun e => column_size m (column e)) <$> before_null m l.*2)) i) /\
  ((~ exists i, mismatch_at
       (res :: ((fun e => column_size m (column e)) <$> before_null m l.*2)) i) ->
     rows_from m fn l res
     = if forallb (fun e => negb (isNull m (column e))) l.*2
       then Ok (default res (last ((fun e => column_size m (column e)) <$> l.*2)))
       else NullPointer).
Proof.
  revert res. induction l as [|[it e] l IH]; intros res; cbn -[last].
  - split; [split|done].
    + by intros [msg ?].
    + intros [i (s1 & s2 & _ & H2 & _)]. by destruct i.
  - destruct (isNull m (column e)) eqn:Hnull; cbn -[last].
    { split; [split|done].
      + by intros [msg ?].
      + intros [i (s1 & s2 & _ & H2 & _)]. by destruct i. }
    set (size := column_size m (column e)).
    set (s := (fun e => column_size m (column e)) <$> before_null m l.*2).
    destruct (IH size) as [IHthrow IHok]. fold size s in IHthrow, IHok.
    destruct (negb (res =? 0) && negb (size =? res)) eqn:Hcond.
    + apply andb_true_iff in Hcond as [H1%negb_true_iff%Nat.eqb_neq H2%negb_true_iff%Nat.eqb_neq].
      assert (Hm : mismatch_at (res :: size :: s) 0).
      { by exists res, size. }
      split; [split|].
      * intros _. by exists 0.
      * intros _. by eexists.
      * intros Hno. exfalso. apply Hno. by exists 0.
    + assert (Hm : ~ mismatch_at (res :: size :: s) 0).
      { intros (s1 & s2 & [= <-] & [= <-] & Hs1 & Hs2).
        apply andb_false_iff in Hcond as [H%negb_false_iff%Nat.eqb_eq|H%negb_false_iff%Nat.eqb_eq]; done. }
      split; [rewrite IHthrow; split|].
      * intros [i Hi]. exists (S i). apply Hi.
      * intros [[|i] Hi]; [done|]. by exists i.
      * intros Hno. rewrite IHok.
        -- destruct (forallb _ l.*2); [|done].
           rewrite last_cons. by destruct (last _).
        -- intros [i Hi]. apply Hno. by exists (S i).
Qed.

Lemma no_mismatch_constant (s : list nat) i j x :
  (~ exists k, mismatch_at s k) ->
  s !! i = Some x -> x <> 0 -> i <= j -> j < length s -> s !! j = Some x.
Proof.
  intros Hno Hi Hx Hij. induction Hij as [|j Hij IH]; intros Hj; [done|].
  specialize (IH ltac:(lia)).
  destruct (lookup_lt_is_Some_2 s (S j) Hj) as [y Hy].
  destruct (decide (y = x)) as [->|Hne]; [done|].
  exfalso. apply Hno. exists j, x, y. done.
Qed.

Lemma mismatch_after_zero (s : list nat) :
  (exists i, mismatch_at (0 :: s) i) <-> exists i, mismatch_at s i.
Proof.
  split.
  - intros [[|i] Hi]; [|by exists i]. by destruct Hi as (s1 & s2 & [= <-] & _ & ? & _).
  - intros [i Hi]. by exists (S i).
Qed.

Lemma sizes_before_null_all m b : no_null m b = true -> sizes_before_null m b = sizes m b.
Proof. intros H. unfold sizes_before_null, sizes. by rewrite before_null_all. Qed.

(** What [rows()] does, in terms of the sizes in front of the first null
    handle. *)
Lemma rows_cases m b :
  (throws (rows m b) SIZES_OF_COLUMNS_DOESNT_MATCH
   <-> exists i, mismatch_at (sizes_before_null m b) i) /\
  ((~ exists i, mismatch_at (sizes_before_null m b) i) ->
     rows m b = if no_null m b then Ok (default 0 (last (sizes m b))) else NullPointer).
Proof.
  destruct (rows_from_spec m (first_name (data b)) (data b) 0) as [Hthrow Hok].
  fold (elements b) in Hthrow, Hok. fold (sizes_before_null m b) in Hthrow, Hok.
  fold (sizes m b) (no_null m b) (rows m b) in Hthrow, Hok.
  rewrite mismatch_after_zero in Hthrow, Hok. done.
Qed.

(** C5 (amended). [rows()] looks at the columns in order, as far as the
    first null handle. It throws [SIZES_OF_COLUMNS_DOESNT_MATCH] exactly
    when, among the columns in front of the first null handle (all of them
    when no handle is null), some column that is not empty is followed by a
    column of another size, which may be zero. Otherwise, when a handle is
    null, the call ends in the dereference of that handle and returns no
    count; and when no handle is null, it returns the size of the last
    column, 0 for the empty block, and every column from the first
    non-empty one on has that size. Sizes [5, 5, 5] give 5; sizes
    [5, 5, 7] throw, the message naming the first column and the third;
    with the second handle null instead, the null handle is
    dereferenced. *)
Theorem rows_spec m b :
  (throws (rows m b) SIZES_OF_COLUMNS_DOESNT_MATCH
   <-> exists i, mismatch_at (sizes_before_null m b) i) /\
  ((~ exists i, mismatch_at (sizes_before_null m b) i) ->
     (no_null m b = false -> rows m b = NullPointer) /\
     (no_null m b = true ->
        rows m b = Ok (default 0 (last (sizes m b))) /\
        forall i j s, sizes m b !! i = Some s -> s <> 0 -> i <= j -> j < length (data b) ->
          sizes m b !! j = Some s)) /\
  (no_null m b = true -> sizes_before_null m b = sizes m b) /\
  (rows (rows_memory [5; 5; 5]) xyz = Ok 5 /\
   rows (rows_memory [5; 5; 7]) xyz
   = Throw SIZES_OF_COLUMNS_DOESNT_MATCH "Sizes of columns doesn't match: x: 5, z: 7" /\
   rows (null_at 1 (rows_memory [5; 5; 7])) xyz = NullPointer).
Proof.
  destruct (rows_cases m b) as [Hthrow Hok].
  split; [done|]. split; [|split].
  - intros Hno. rewrite (Hok Hno). split; intros Hnull; rewrite Hnull; [done|].
    split; [done|].
    intros i j s Hi Hs Hij Hj. eapply no_mismatch_constant; eauto.
    + by rewrite <- sizes_before_null_all.
    + unfold sizes, elements. by rewrite !length_fmap.
  - apply sizes_before_null_all.
  - by vm_compute.
Qed.

Lemma rows_spec_witness :
  rows (rows_memory [5; 5; 5]) xyz = Ok (default 0 (last (sizes (rows_memory [5; 5; 5]) xyz))).
Proof.
  destruct (rows_spec (rows_memory [5; 5; 5]) xyz) as (_ & H & _).
  apply H; [|reflexivity]. intros [i (s1 & s2 & H1 & H2 & H3 & H4)].
  destruct i as [|[|[|i]]]; vm_compute in H1, H2; congruence.
Defined.

(** C5 as worded fails on the sizes [5, 0]: there are no two differing
    non-zero sizes, and [rows()] throws. *)
Lemma rows_not_as_claimed : ~ rows_as_claimed.
Proof.
  intros H. destruct (H (rows_memory [5; 0]) xy) as [[Hthrow _] _].
  destruct Hthrow as (i & j & s1 & s2 & Hi & Hj & H1 & H2 & H3).
  - vm_compute. by eexists.
  - destruct i as [|[|i]], j as [|[|j]]; vm_compute in Hi, Hj; congruence.
Qed.

(** *** Names that are not found *)

Lemma prefix_refl (s : string) : String.prefix s s = true.
Proof.
  induction s as [|a s IH]; simpl; [done|].
  destruct (Ascii.ascii_dec a a); [done|congruence].
Qed.

Lemma includes_refl (s : string) : includes s s = true.
Proof. destruct s; cbn [includes]; by rewrite prefix_refl. Qed.

Lemma includes_prepend (pre sub s : string) :
  includes sub s = true -> includes sub (pre +:+ s) = true.
Proof.
  intros Hs. induction pre as [|a pre IH]; [done|].
  change (includes sub (String a (pre +:+ s)) = true).
  cbn [includes]. rewrite IH. apply orb_true_r.
Qed.

Lemma absent_has b n : wf b -> n ∉ names b -> has b n = false.
Proof.
  intros Hwf Hn. apply has_false.
  destruct (index_by_name b !! n) as [it|] eqn:Hit; [|done].
  destruct (wf_name b Hwf n it Hit) as (e & Hin & <-).
  exfalso. apply Hn. unfold names, elements.
  apply list_elem_of_fmap. exists e. split; [done|].
  apply list_elem_of_fmap. by exists (it, e).
Qed.

(** C8 (the code departs from it). For a name that the block does not have,
    [getByName], [getPositionByName] and [erase(name)] throw
    [NOT_FOUND_COLUMN_IN_BLOCK], and the message is to include the names of
    all columns of the block. The messages of [getByName] and
    [getPositionByName] do; [erase(name)] reports the missing name only:
    erasing [y] from the block of the one column [x], its message does not
    mention [x]. *)
Theorem not_found_messages b n :
  wf b -> n ∉ names b ->
  getByName b n = Throw NOT_FOUND_COLUMN_IN_BLOCK (not_found b n) /\
  getPositionByName b n = Throw NOT_FOUND_COLUMN_IN_BLOCK (not_found b n) /\
  includes (dumpNames b) (not_found b n) = true /\
  erase_name b n
  = Throw NOT_FOUND_COLUMN_IN_BLOCK ("No such name in Block::erase(): '" +:+ n +:+ "'") /\
  (("y" ∉ names x_Int32) /\ dumpNames x_Int32 = "x" /\
   erase_name x_Int32 "y"
   = Throw NOT_FOUND_COLUMN_IN_BLOCK "No such name in Block::erase(): 'y'" /\
   includes "x" "No such name in Block::erase(): 'y'" = false).
Proof.
  intros Hwf Hn. apply absent_has, has_false in Hn; [|done].
  unfold getByName, getPositionByName, erase_name. rewrite Hn.
  repeat split; try done.
  - unfold not_found. do 3 apply includes_prepend. apply includes_refl.
  - vm_compute. intros H. apply elem_of_cons in H as [H|H]; [done|].
    by apply elem_of_nil in H.
Qed.

Lemma not_found_messages_witness :
  erase_name x_Int32 "y"
  = Throw NOT_FOUND_COLUMN_IN_BLOCK ("No such name in Block::erase(): '" +:+ "y" +:+ "'").
Proof.
  apply (not_found_messages x_Int32 "y").
  - unfold x_Int32. rewrite insert_inserted; [apply wf_inserted|]; apply wf_empty.
  - vm_compute. intros H. apply elem_of_cons in H as [H|H]; [done|].
    by apply elem_of_nil in H.
Defined.

(** *** insertUnique *)

(** C9 (amended). When [has] says that the block has no column of the name
    of [e], [insertUnique(e)] is [insert(e)] and appends [e]; when it says
    that the block has one, the block is left as it is, and nothing is
    thrown. In a block built without an insertion of a name it already had,
    [has] says so exactly for the names of its columns. *)
Theorem insertUnique_spec b e :
  (has b (name e) = false ->
     insertUnique b e = insert b e /\ elements (insertUnique b e) = elements b ++ [e]) /\
  (has b (name e) = true -> insertUnique b e = b) /\
  (reachable true b -> (has b (name e) = true <-> name e ∈ names b)).
Proof.
  unfold insertUnique. split; [|split].
  - intros ->. split; [done|]. unfold elements. simpl. by rewrite fmap_app.
  - by intros ->.
  - intros Hr. symmetry. apply indexed_names.
    + by eapply reachable_wf.
    + by apply reachable_indexed.
Qed.

Lemma insertUnique_spec_witness :
  insertUnique x_Int32 (col "y" Int32 1) = insert x_Int32 (col "y" Int32 1) /\
  insertUnique x_Int32 (col "x" Int64 1) = x_Int32 /\
  (has x_Int32 "x" = true <-> "x" ∈ names x_Int32).
Proof.
  split; [|split].
  - apply (insertUnique_spec x_Int32 (col "y" Int32 1)). reflexivity.
  - apply (insertUnique_spec x_Int32 (col "x" Int64 1)). reflexivity.
  - apply (insertUnique_spec x_Int32 (col "x" Int64 1)).
    unfold x_Int32. apply reach_insert; [apply reach_empty|reflexivity].
Defined.

(** C9 as worded fails on the block that is left when two columns named [a]
    are appended and position 0 is erased: it has a column named [a], and
    [insertUnique] appends another. *)
Lemma insertUnique_not_as_claimed : ~ insertUnique_as_claimed.
Proof.
  intros H.
  assert (Hr : reachable false aa_erased).
  { eapply reach_erase; [|apply aa_erased_eq].
    unfold aa. repeat (apply reach_insert; [|done]). apply reach_empty. }
  destruct (H aa_erased (col "a" Int32 2) Hr) as [_ Hsame].
  assert (Hin : "a" ∈ names aa_erased) by (vm_compute; left).
  apply Hsame in Hin. apply (f_equal next_node) in Hin. vm_compute in Hin. discriminate.
Qed.

(** *** Nested arrays *)

Section NestedFacts.

Variable extractNestedTableName : string -> string.

Local Abbreviation check_from := (Block.check_from extractNestedTableName).
Local Abbreviation optimize_from := (Block.optimize_from extractNestedTableName).
Local Abbreviation group := (Block.group extractNestedTableName).
Local Abbreviation first_array := (Block.first_array extractNestedTableName).
Local Abbreviation sharing := (Block.sharing extractNestedTableName).
Local Abbreviation unshared := (Block.unshared extractNestedTableName).

Lemma hasEqualOffsets_contents m a b :
  hasEqualOffsets m a b = bool_decide (getOffsets m a = getOffsets m b).
Proof.
  unfold hasEqualOffsets. destruct (decide (a = b)) as [->|Hne].
  - by rewrite !bool_decide_eq_true_2.
  - by rewrite (bool_decide_eq_false_2 (a = b)).
Qed.

Lemma offsets_of_set_offsets m c o c' :
  offsets_of (set_offsets m c o) c' = if decide (c = c') then Some o else offsets_of m c'.
Proof.
  unfold offsets_of, set_offsets. simpl. unfold base.insert, fn_insert.
  by destruct (decide (c = c')).
Qed.

Lemma contents_set_offsets m c o o1 :
  offsets_of m c = Some o -> getOffsets m o1 = getOffsets m o ->
  forall c', contents (set_offsets m c o1) c' = contents m c'.
Proof.
  intros Hc Heq c'. unfold contents. rewrite offsets_of_set_offsets.
  destruct (decide (c = c')) as [<-|]; [|done]. rewrite Hc. simpl. by rewrite Heq.
Qed.

Lemma isNull_set_offsets m c o o1 :
  offsets_of m c = Some o -> forall c', isNull (set_offsets m c o1) c' = isNull m c'.
Proof.
  intros Hc c'. unfold isNull, set_offsets. simpl. unfold base.insert, fn_insert.
  destruct (decide (c = c')) as [<-|]; [|done].
  unfold offsets_of in Hc. by destruct (object m c).
Qed.

(** The check reads the memory through [contents] and [isNull] only. *)
Lemma check_from_contents m m' l ac :
  (forall c, contents m c = contents m' c) -> (forall c, isNull m c = isNull m' c) ->
  check_from m l ac = check_from m' l ac.
Proof.
  intros Hm Hnull. revert ac. induction l as [|[it e] l IH]; intros ac; simpl; [done|].
  rewrite <- Hnull. destruct (isNull m (column e)); [done|].
  pose proof (Hm (column e)) as He. unfold contents in He.
  destruct (offsets_of m (column e)) as [o|], (offsets_of m' (column e)) as [o'|];
    simplify_eq/=; [|done].
  destruct (ac !! extractNestedTableName (name e)) as [first|]; [|done].
  pose proof (Hm first) as Hf. unfold contents in Hf.
  destruct (offsets_of m first) as [o1|], (offsets_of m' first) as [o1'|];
    simplify_eq/=; [|done].
  rewrite !hasEqualOffsets_contents. rewrite Hf, He.
  case_bool_decide; [apply IH|done].
Qed.

(** The optimization decides as the check does, and leaves to every column
    the offsets it had. *)
Lemma optimize_from_check m l ac :
  (optimize_from m l ac).1 = check_from m l ac /\
  forall c, contents (optimize_from m l ac).2 c = contents m c.
Proof.
  revert m ac. induction l as [|[it e] l IH]; intros m ac; simpl; [done|].
  destruct (isNull m (column e)); [done|].
  destruct (offsets_of m (column e)) as [o|] eqn:He; [|apply IH].
  destruct (ac !! extractNestedTableName (name e)) as [first|]; [|apply IH].
  destruct (offsets_of m first) as [o1|] eqn:Hf; [|done].
  rewrite hasEqualOffsets_contents.
  case_bool_decide as Heq; [|done].
  destruct (IH (set_offsets m (column e) o1) ac) as [IH1 IH2].
  pose proof (contents_set_offsets m (column e) o o1 He Heq) as Hset.
  split.
  - rewrite IH1. symmetry. apply check_from_contents.
    + intros c. by rewrite Hset.
    + intros c. symmetry. by eapply isNull_set_offsets.
  - intros c. by rewrite IH2, Hset.
Qed.

(** The optimization leaves the null handles null and the others not. *)
Lemma optimize_from_isNull m l ac :
  forall c, isNull (optimize_from m l ac).2 c = isNull m c.
Proof.
  revert m ac. induction l as [|[it e] l IH]; intros m ac; simpl; [done|].
  destruct (isNull m (column e)); [done|].
  destruct (offsets_of m (column e)) as [o|] eqn:He; [|apply IH].
  destruct (ac !! extractNestedTableName (name e)) as [first|]; [|apply IH].
  destruct (offsets_of m first) as [o1|] eqn:Hf; [|done].
  destruct (hasEqualOffsets m o1 o); [|done].
  intros c. rewrite IH. by eapply isNull_set_offsets.
Qed.

Lemma kinds_contents m m0 : (forall c, contents m c = contents m0 c) -> kinds m m0.
Proof.
  intros H c. specialize (H c). unfold contents in H.
  destruct (offsets_of m c), (offsets_of m0 c); by simplify_eq/=.
Qed.

Lemma is_array_kinds m m0 e : kinds m m0 -> is_array m e = is_array m0 e.
Proof. intros H. unfold is_array. apply bool_decide_ext, H. Qed.

Lemma first_array_kinds m m0 l g : kinds m m0 -> first_array m l g = first_array m0 l g.
Proof.
  intros H. induction l as [|e l IH]; simpl; [done|].
  by rewrite (is_array_kinds m m0 e H), IH.
Qed.

Lemma first_array_app m l e g :
  first_array m (l ++ [e]) g
  = match first_array m l g with
    | Some f => Some f
    | None => if is_array m e && bool_decide (group e = g) then Some (column e) else None
    end.
Proof.
  induction l as [|x l IH]; simpl; [done|].
  by destruct (is_array m x && bool_decide (group x = g)).
Qed.

Lemma first_array_Some m l g f :
  first_array m l g = Some f ->
  exists e, e ∈ l /\ column e = f /\ is_array m e = true /\ group e = g.
Proof.
  induction l as [|x l IH]; simpl; [done|].
  destruct (is_array m x && bool_decide (group x = g)) eqn:Hx.
  - intros [= <-]. apply andb_true_iff in Hx as [Ha Hg%bool_decide_eq_true].
    exists x. split; [by left|done].
  - intros (e & Hin & He)%IH. exists e. split; [by right|done].
Qed.

Lemma is_array_true m e : is_array m e = true <-> is_Some (offsets_of m (column e)).
Proof. unfold is_array. by rewrite bool_decide_eq_true. Qed.

Lemma is_array_false m e : is_array m e = false <-> offsets_of m (column e) = None.
Proof. unfold is_array. rewrite bool_decide_eq_false. by rewrite eq_None_not_Some. Qed.

Lemma kinds_set_offsets m m0 c o o1 :
  kinds m m0 -> offsets_of m c = Some o -> kinds (set_offsets m c o1) m0.
Proof.
  intros H Hc c'. rewrite offsets_of_set_offsets.
  destruct (decide (c = c')) as [<-|]; [|apply H].
  split; intros _; [|by eexists]. apply H. by eexists.
Qed.

Lemma sharing_snoc_other m0 m l e :
  offsets_of m (column e) = None -> sharing m0 m l -> sharing m0 m (l ++ [e]).
Proof.
  intros He Hs e' o Hin Ho.
  apply elem_of_app in Hin as [Hin|Hin%list_elem_of_singleton]; [|congruence].
  destruct (Hs e' o Hin Ho) as (f & Hf & Hof).
  exists f. split; [|done]. by rewrite first_array_app, Hf.
Qed.

Lemma optimize_from_sharing m0 all :
  unshared m0 all ->
  forall l done m ac,
    all = done ++ l.*2 -> kinds m m0 ->
    (forall g, ac !! g = first_array m0 done g) ->
    sharing m0 m done ->
    (optimize_from m l ac).1 = Ok tt ->
    sharing m0 (optimize_from m l ac).2 all.
Proof.
  intros Hun. induction l as [|[it e] l IH]; intros done m ac Hall Hk Hac Hs Hok.
  { simpl in *. rewrite app_nil_r in Hall. by subst. }
  simpl in Hall. rewrite cons_middle, app_assoc in Hall.
  simpl in Hok |- *.
  destruct (isNull m (column e)); [done|].
  destruct (offsets_of m (column e)) as [o|] eqn:He.
  2:{ apply (IH (done ++ [e])); try done.
      - intros g. rewrite first_array_app, <- Hac.
        assert (is_array m0 e = false) as ->; [|by destruct (ac !! g)].
        rewrite <- (is_array_kinds m m0 e Hk). by apply is_array_false.
      - by apply sharing_snoc_other. }
  assert (Harr : is_array m0 e = true).
  { rewrite <- (is_array_kinds m m0 e Hk). apply is_array_true. by eexists. }
  fold (group e) in Hok |- *.
  destruct (ac !! group e) as [f|] eqn:Hg.
  - destruct (offsets_of m f) as [o1|] eqn:Hf; [|done].
    destruct (hasEqualOffsets m o1 o) eqn:Heq; [|done].
    assert (Hset : forall c, offsets_of (set_offsets m (column e) o1) c
                             = if decide (column e = c) then Some o1 else offsets_of m c).
    { intros c. apply offsets_of_set_offsets. }
    assert (Hf' : offsets_of (set_offsets m (column e) o1) f = Some o1).
    { rewrite Hset. by case_decide. }
    apply (IH (done ++ [e])); try done.
    + by eapply kinds_set_offsets.
    + intros g. rewrite first_array_app, <- Hac.
      destruct (ac !! g) eqn:Hg'; [done|].
      rewrite bool_decide_eq_false_2, andb_false_r; [done|]. congruence.
    + intros e' o' Hin Ho'.
      assert (Hfirst : first_array m0 (done ++ [e]) (group e) = Some f).
      { by rewrite first_array_app, <- Hac, Hg. }
      rewrite Hset in Ho'.
      destruct (decide (column e = column e')) as [Hc|Hc].
      * injection Ho' as <-. exists f. split; [|done].
        assert (group e' = group e) as ->; [|done].
        symmetry. apply Hun; [| |done..]; rewrite Hall; apply elem_of_app; left;
          [apply elem_of_app; right; by apply list_elem_of_singleton|done].
      * apply elem_of_app in Hin as [Hin|Hin%list_elem_of_singleton]; [|congruence].
        destruct (Hs e' o' Hin Ho') as (f' & Hf1 & Hf2).
        exists f'. split; [by rewrite first_array_app, Hf1|].
        rewrite Hset. destruct (decide (column e = f')) as [Hcf|]; [|done].
        destruct (first_array_Some _ _ _ _ Hf1) as (x & Hx & Hxc & Hxa & Hxg).
        assert (Hgg : group x = group e).
        { apply Hun; [| |done|congruence]; rewrite Hall; apply elem_of_app; left;
            apply elem_of_app; [by left|right; by apply list_elem_of_singleton]. }
        assert (f' = f) as -> by (rewrite <- Hxg, Hgg, <- Hac, Hg in Hf1; congruence).
        congruence.
  - apply (IH (done ++ [e])); try done.
    + intros g. rewrite first_array_app, <- Hac.
      destruct (decide (group e = g)) as [<-|Hne].
      * rewrite lookup_insert_eq, Hg, Harr. by rewrite bool_decide_eq_true_2.
      * rewrite lookup_insert_ne by done. destruct (ac !! g); [done|].
        by rewrite bool_decide_eq_false_2, andb_false_r.
    + intros e' o' Hin Ho'.
      apply elem_of_app in Hin as [Hin|Hin%list_elem_of_singleton].
      * destruct (Hs e' o' Hin Ho') as (f' & Hf1 & Hf2).
        exists f'. split; [by rewrite first_array_app, Hf1|done].
      * subst e'. exists (column e). split; [|done].
        rewrite first_array_app, <- Hac, Hg, Harr. by rewrite bool_decide_eq_true_2.
Qed.

End NestedFacts.



End BlockFacts.

(** ** Further facts about the speed limits *)

Module LimitsMore.
Import Limits LimitsFacts.
Local Open Scope Z_scope.

(** The sleeps of one call: what [limitProgressingSpeed] adds. *)
Lemma limitProgressingSpeed_adds size speed elapsed ctx :
  0 <= ThrottlerSleepMicroseconds ctx < 2 ^ 64 ->
  exists new,
    sleeps (limitProgressingSpeed size speed elapsed ctx) = new ++ sleeps ctx /\
    (length new <= 1)%nat /\
    Forall (fun s => 0 < s <= 1000000) new /\
    ThrottlerSleepMicroseconds (limitProgressingSpeed size speed elapsed ctx)
    = wrap64 (ThrottlerSleepMicroseconds ctx + foldr Z.add 0 new) /\
    0 <= ThrottlerSleepMicroseconds (limitProgressingSpeed size speed elapsed ctx) < 2 ^ 64.
Proof.
  intros Hc. unfold limitProgressingSpeed.
  destruct (_ >? elapsed) eqn:Hgt.
  - apply Z.gtb_lt in Hgt. eexists [_]. simpl. split; [done|]. split; [lia|].
    split; [constructor; [lia|constructor]|]. split.
    + by rewrite Z.add_0_r.
    + unfold wrap64. apply Z.mod_pos_bound. lia.
  - exists []. simpl. split; [done|]. split; [lia|]. split; [constructor|].
    split; [|done]. unfold wrap64. rewrite Z.add_0_r, Z.mod_small; lia.
Qed.

(** X20. A call of [throttle] that throws has not slept. A call sleeps at
    most twice, each time more than zero and at most one million
    microseconds, and the counter grows by the sum of the sleeps, modulo
    2^64. *)
Theorem throttle_sleeps l read_rows read_bytes total_rows elapsed ctx :
  0 <= ThrottlerSleepMicroseconds ctx < 2 ^ 64 ->
  let r := throttle l read_rows read_bytes total_rows elapsed ctx in
  (r.2 <> Returned -> r.1 = ctx) /\
  exists new,
    sleeps r.1 = new ++ sleeps ctx /\
    (length new <= 2)%nat /\
    Forall (fun s => 0 < s <= 1000000) new /\
    ThrottlerSleepMicroseconds r.1
    = wrap64 (ThrottlerSleepMicroseconds ctx + foldr Z.add 0 new).
Proof.
  intros Hc.
  assert (Hnone : exists new : list Z,
            sleeps ctx = new ++ sleeps ctx /\ (length new <= 2)%nat /\
            Forall (fun s => 0 < s <= 1000000) new /\
            ThrottlerSleepMicroseconds ctx
            = wrap64 (ThrottlerSleepMicroseconds ctx + foldr Z.add 0 new)).
  { exists []. simpl. split; [done|]. split; [lia|]. split; [constructor|].
    unfold wrap64. rewrite Z.add_0_r, Z.mod_small; lia. }
  assert (Htwo : forall a1 b1 a2 b2 (u1 u2 : bool),
    let c1 := if u1 then limitProgressingSpeed a1 b1 elapsed ctx else ctx in
    let c2 := if u2 then limitProgressingSpeed a2 b2 elapsed c1 else c1 in
    exists new : list Z,
      sleeps c2 = new ++ sleeps ctx /\ (length new <= 2)%nat /\
      Forall (fun s => 0 < s <= 1000000) new /\
      ThrottlerSleepMicroseconds c2
      = wrap64 (ThrottlerSleepMicroseconds ctx + foldr Z.add 0 new)).
  { intros a1 b1 a2 b2 u1 u2 c1 c2.
    assert (H1 : exists new1,
              sleeps c1 = new1 ++ sleeps ctx /\ (length new1 <= 1)%nat /\
              Forall (fun s => 0 < s <= 1000000) new1 /\
              ThrottlerSleepMicroseconds c1
              = wrap64 (ThrottlerSleepMicroseconds ctx + foldr Z.add 0 new1) /\
              0 <= ThrottlerSleepMicroseconds c1 < 2 ^ 64).
    { unfold c1. destruct u1; [by apply limitProgressingSpeed_adds|].
      exists []. simpl. split; [done|]. split; [lia|]. split; [constructor|].
      split; [|done]. unfold wrap64. rewrite Z.add_0_r, Z.mod_small; lia. }
    destruct H1 as (new1 & Hs1 & Hl1 & Hf1 & Hc1 & Hr1).
    assert (H2 : exists new2,
              sleeps c2 = new2 ++ sleeps c1 /\ (length new2 <= 1)%nat /\
              Forall (fun s => 0 < s <= 1000000) new2 /\
              ThrottlerSleepMicroseconds c2
              = wrap64 (ThrottlerSleepMicroseconds c1 + foldr Z.add 0 new2)).
    { unfold c2. destruct u2.
      - destruct (limitProgressingSpeed_adds a2 b2 elapsed c1 Hr1) as (n & ? & ? & ? & ? & _).
        by exists n.
      - exists []. simpl. split; [done|]. split; [lia|]. split; [constructor|].
        unfold wrap64. rewrite Z.add_0_r, Z.mod_small; lia. }
    destruct H2 as (new2 & Hs2 & Hl2 & Hf2 & Hc2).
    exists (new2 ++ new1). split; [by rewrite Hs2, Hs1, app_assoc|].
    split; [rewrite length_app; lia|]. split; [by apply Forall_app|].
    rewrite Hc2, Hc1. unfold wrap64. rewrite Zplus_mod_idemp_l. f_equal.
    rewrite foldr_app.
    assert (Hsum : forall (k : list Z) (z : Z), foldr Z.add z k = foldr Z.add 0 k + z).
    { induction k as [|x k IHk]; intros z; simpl; [lia|]. rewrite IHk. lia. }
    rewrite (Hsum new2 (foldr Z.add 0 new1)). lia. }
  unfold throttle.
  destruct (speed_is_checked l total_rows elapsed); [|by split].
  destruct (dlt (to_double 0) _); [|by split].
  destruct (nonzero (min_execution_speed l) && _); [by split|].
  destruct (nonzero (min_execution_speed_bytes l) && _); [by split|].
  destruct (nonzero (totalMicroseconds (max_execution_time l)) && _ && _ && _); [by split|].
  split; [done|]. apply Htwo.
Qed.

Lemma throttle_sleeps_witness :
  exists new,
    sleeps (throttle (max_speed_100 0 0 50 {| totalMicroseconds := 0 |} {| totalMicroseconds := 0 |})
                     1000 1000 0 1000000
                     {| ThrottlerSleepMicroseconds := 1000001; sleeps := [] |}).1 = new ++ [] /\
    (length new <= 2)%nat.
Proof.
  destruct (throttle_sleeps
              (max_speed_100 0 0 50 {| totalMicroseconds := 0 |} {| totalMicroseconds := 0 |})
              1000 1000 0 1000000 {| ThrottlerSleepMicroseconds := 1000001; sleeps := [] |})
    as [_ (new & H1 & H2 & _)].
  - simpl. lia.
  - by exists new.
Defined.

(** X21. [throttle] returns at once, without exception, sleep or count,
    while the elapsed time has not passed the grace period, and when none of
    the four speeds is set unless both a total of rows and a grace period
    are given: [max_execution_time] alone does not make it check. *)
Theorem throttle_inert l read_rows read_bytes total_rows elapsed ctx :
  to_Int64 elapsed <= totalMicroseconds (timeout_before_checking_execution_speed l) \/
  (min_execution_speed l = 0 /\ max_execution_speed l = 0 /\
   min_execution_speed_bytes l = 0 /\ max_execution_speed_bytes l = 0 /\
   (total_rows = 0 \/ totalMicroseconds (timeout_before_checking_execution_speed l) = 0)) ->
  throttle l read_rows read_bytes total_rows elapsed ctx = (ctx, Returned).
Proof.
  intros H. unfold throttle.
  assert (speed_is_checked l total_rows elapsed = false) as ->; [|done].
  unfold speed_is_checked. destruct H as [H|(-> & -> & -> & -> & [-> | ->])].
  - apply andb_false_iff. right. destruct (_ >? _) eqn:Hgt; [|done].
    apply Z.gtb_lt in Hgt. lia.
  - done.
  - simpl. by rewrite andb_false_r.
Qed.

Lemma throttle_inert_witness :
  throttle (max_speed_100 1000 0 0 {| totalMicroseconds := 0 |} {| totalMicroseconds := 5000000 |})
           1 0 0 2000000 {| ThrottlerSleepMicroseconds := 3000000; sleeps := [] |}
  = ({| ThrottlerSleepMicroseconds := 3000000; sleeps := [] |}, Returned) /\
  throttle {| min_execution_speed := 0; max_execution_speed := 0;
              min_execution_speed_bytes := 0; max_execution_speed_bytes := 0;
              max_execution_time := {| totalMicroseconds := 1000000 |};
              timeout_before_checking_execution_speed := {| totalMicroseconds := 0 |} |}
           10 0 1000 1 {| ThrottlerSleepMicroseconds := 2; sleeps := [] |}
  = ({| ThrottlerSleepMicroseconds := 2; sleeps := [] |}, Returned).
Proof.
  split.
  - apply throttle_inert. left. vm_compute. discriminate.
  - apply throttle_inert. right. simpl. repeat split; auto.
Defined.

End LimitsMore.

(** ** Further facts about blocks *)

Module BlockMore.
Import Block BlockFacts.

(** *** Positions and names in the blocks that the operations build *)

Lemma data_lookup_unique b p q it e e' :
  wf b -> data b !! p = Some (it, e) -> data b !! q = Some (it, e') -> p = q /\ e = e'.
Proof.
  intros Hwf Hp Hq.
  assert (p = q) as ->.
  { eapply (NoDup_lookup _ _ _ it (wf_nodup b Hwf)); by rewrite list_lookup_fmap, ?Hp, ?Hq. }
  split; [done|congruence].
Qed.

(** X1. In a block built by any sequence of the operations, duplicates of
    names included, the position index has one slot per element,
    [getByPosition] throws [POSITION_OUT_OF_BOUND] exactly from the number
    of columns on, and below it returns the element at that place of the
    sequence. *)
Theorem getByPosition_spec unique b position :
  reachable unique b ->
  columns b = length (elements b) /\
  (throws (getByPosition b position) POSITION_OUT_OF_BOUND <-> columns b <= position) /\
  (forall e, getByPosition b position = Ok e <-> elements b !! position = Some e).
Proof.
  intros Hwf%reachable_wf. split; [by apply columns_elements|].
  destruct (elements b !! position) as [e|] eqn:He.
  - pose proof (lookup_lt_Some _ _ _ He) as Hlt.
    rewrite <- (columns_elements b Hwf) in Hlt.
    rewrite (getByPosition_Ok b position e Hwf He). split.
    + split; [by intros [msg ?]|lia].
    + intros e'. split; congruence.
  - apply lookup_ge_None_1 in He. rewrite <- (columns_elements b Hwf) in He.
    destruct (getByPosition_throws b position He) as [msg Hmsg]. rewrite Hmsg. split.
    + split; [done|]. intros _. by eexists.
    + intros e. split; intros; congruence.
Qed.

Lemma getByPosition_spec_witness :
  getByPosition abc 1 = Ok (col "b" Int32 1) <-> elements abc !! 1 = Some (col "b" Int32 1).
Proof.
  apply (getByPosition_spec true abc 1).
  unfold abc. repeat (apply reach_insert; [|reflexivity]). apply reach_empty.
Defined.

(** X2. In such a block the three lookups agree: when [has] holds for a
    name, [getByName] returns an element of that name, and
    [getByPosition] at the position that [getPositionByName] gives
    returns the same element; when [has] does not hold, both lookups by
    name throw [NOT_FOUND_COLUMN_IN_BLOCK]. *)
Theorem lookup_by_name_agrees unique b n :
  reachable unique b ->
  (has b n = true ->
     exists position e,
       getPositionByName b n = Ok position /\ getByName b n = Ok e /\
       getByPosition b position = Ok e /\ name e = n) /\
  (has b n = false ->
     throws (getPositionByName b n) NOT_FOUND_COLUMN_IN_BLOCK /\
     throws (getByName b n) NOT_FOUND_COLUMN_IN_BLOCK).
Proof.
  intros Hwf%reachable_wf. split.
  - intros [it Hn]%has_true.
    destruct (by_name_Ok b n it Hwf Hn) as (position & e & Hp & He & Hpos & Hget).
    exists position, e. repeat split; try done.
    apply getByPosition_Ok; [done|]. unfold elements. by rewrite list_lookup_fmap, Hp.
  - intros Hn%has_false. unfold getPositionByName, getByName. rewrite Hn.
    split; by eexists.
Qed.

Lemma lookup_by_name_agrees_witness :
  exists position e,
    getPositionByName aa "a" = Ok position /\ getByName aa "a" = Ok e /\
    getByPosition aa position = Ok e /\ name e = "a".
Proof.
  destruct (lookup_by_name_agrees false aa "a") as [H _].
  - unfold aa. repeat (apply reach_insert; [|done]). apply reach_empty.
  - apply H. reflexivity.
Defined.

(** *** What an insertion does to the lookups *)

Lemma data_inserted_middle b position e :
  position <= length (data b) ->
  data (inserted b position e) !! position = Some (next_node b, e).
Proof.
  intros Hp. simpl.
  rewrite lookup_app_r; rewrite length_take; [|lia].
  by replace (position - position `min` length (data b)) with 0 by lia.
Qed.

(** X3. The column inserted last is the one its name finds: after a
    successful insertion at [position], also over columns of the same name,
    [getByName] returns the new element and [getPositionByName] its
    position. *)
Theorem insert_at_lookup b position e b' :
  wf b -> insert_at b position e = Ok b' ->
  has b' (name e) = true /\
  getByName b' (name e) = Ok e /\
  getPositionByName b' (name e) = Ok position /\
  getByPosition b' position = Ok e.
Proof.
  intros Hwf Hins. apply insert_at_inv in Hins as [Hp ->]; [|done].
  pose proof (wf_inserted b position e Hwf) as Hwf'.
  rewrite (wf_columns b Hwf) in Hp.
  pose proof (data_inserted_middle b position e Hp) as Hmid.
  assert (Hn : index_by_name (inserted b position e) !! name e = Some (next_node b)).
  { simpl. by rewrite lookup_insert_eq. }
  destruct (by_name_Ok _ _ _ Hwf' Hn) as (q & e' & Hq & _ & Hpos & Hget).
  destruct (data_lookup_unique _ _ _ _ _ _ Hwf' Hq Hmid) as [-> ->].
  split; [apply has_true; by eexists|]. split; [done|]. split; [done|].
  apply getByPosition_Ok; [done|]. unfold elements. by rewrite list_lookup_fmap, Hmid.
Qed.

Lemma insert_at_lookup_witness :
  getByName (insert aa (col "a" String_ 2)) "a" = Ok (col "a" String_ 2) /\
  getPositionByName (insert aa (col "a" String_ 2)) "a" = Ok 2.
Proof.
  destruct (insert_at_lookup aa 2 (col "a" String_ 2) (insert aa (col "a" String_ 2)))
    as (_ & H1 & H2 & _); [|reflexivity|done].
  unfold aa. repeat (rewrite insert_inserted; [apply wf_inserted|]); apply wf_empty.
Defined.

Lemma data_inserted_other b position e q x :
  position <= length (data b) ->
  data b !! q = Some x ->
  data (inserted b position e) !! (if decide (q < position) then q else S q) = Some x.
Proof.
  intros Hp Hq. simpl. case_decide.
  - rewrite lookup_app_l by (rewrite length_take; lia). by rewrite lookup_take_lt.
  - rewrite lookup_app_r; rewrite length_take; [|lia].
    replace (S q - position `min` length (data b)) with (S (q - position)) by lia.
    simpl. rewrite lookup_drop. by replace (position + (q - position)) with q by lia.
Qed.

(** X4. An insertion leaves the other names as they are: [has] is
    unchanged, [getByName] returns the same element, and the position of a
    name moves up by one exactly when it is at or after the place of the
    insertion. *)
Theorem insert_at_keeps_others b position e b' n :
  wf b -> insert_at b position e = Ok b' -> n <> name e ->
  has b' n = has b n /\
  (has b n = true ->
     getByName b' n = getByName b n /\
     exists q, getPositionByName b n = Ok q /\
       getPositionByName b' n = Ok (if decide (q < position) then q else S q)).
Proof.
  intros Hwf Hins Hne. apply insert_at_inv in Hins as [Hp ->]; [|done].
  pose proof (wf_inserted b position e Hwf) as Hwf'.
  rewrite (wf_columns b Hwf) in Hp.
  assert (Hn : index_by_name (inserted b position e) !! n = index_by_name b !! n).
  { simpl. by rewrite lookup_insert_ne. }
  split; [unfold has; by rewrite Hn|].
  intros [it Hit]%has_true.
  destruct (by_name_Ok b n it Hwf Hit) as (q & x & Hq & _ & Hpos & Hget).
  pose proof (data_inserted_other b position e q _ Hp Hq) as Hq'.
  rewrite <- Hn in Hit.
  destruct (by_name_Ok _ n it Hwf' Hit) as (q' & x' & Hq'' & _ & Hpos' & Hget').
  destruct (data_lookup_unique _ _ _ _ _ _ Hwf' Hq'' Hq') as [-> ->].
  split; [congruence|]. by exists q.
Qed.

Lemma insert_at_keeps_others_witness :
  getPositionByName abc "c" = Ok 2 /\
  exists q, getPositionByName abc "c" = Ok q /\
    getPositionByName (inserted abc 1 mid) "c" = Ok (if decide (q < 1) then q else S q).
Proof.
  split; [reflexivity|].
  destruct (insert_at_keeps_others abc 1 mid (inserted abc 1 mid) "c") as [_ H].
  - unfold abc. repeat (rewrite insert_inserted; [apply wf_inserted|]); apply wf_empty.
  - by vm_compute.
  - done.
  - apply H. reflexivity.
Defined.

(** *** Erasing *)

Lemma erase_name_erase b n position :
  wf b -> getPositionByName b n = Ok position ->
  erase_name b n = erase b position /\ erase b position = Ok (erased b position n).
Proof.
  intros Hwf Hpos.
  destruct (index_by_name b !! n) as [it|] eqn:Hn;
    [|unfold getPositionByName in Hpos; by rewrite Hn in Hpos].
  destruct (by_name_Ok b n it Hwf Hn) as (q & e & Hq & He & Hpos' & _).
  assert (q = position) as -> by congruence.
  destruct (erase_name_Ok b n it Hwf Hn) as (q & e' & Hq' & _ & ->).
  destruct (data_lookup_unique _ _ _ _ _ _ Hwf Hq' Hq) as [-> ->].
  rewrite (erase_Ok b position it e Hwf Hq); [by rewrite He|].
  rewrite He. by eexists.
Qed.

(** X5. Erasing by name is erasing at the position the name is found at:
    both calls end the same, the element at that position is removed from
    the sequence, and the name is no longer found. *)
Theorem erase_name_by_position b n position :
  wf b -> getPositionByName b n = Ok position ->
  erase_name b n = erase b position /\
  exists b', erase b position = Ok b' /\
    elements b' = delete position (elements b) /\ has b' n = false.
Proof.
  intros Hwf Hpos. destruct (erase_name_erase b n position Hwf Hpos) as [H1 H2].
  split; [done|]. exists (erased b position n). split; [done|]. split.
  - unfold elements. simpl. by rewrite list_fmap_delete.
  - apply has_false. simpl. apply lookup_delete_eq.
Qed.

Lemma erase_name_by_position_witness :
  getPositionByName aa "a" = Ok 1 /\ erase_name aa "a" = erase aa 1.
Proof.
  split; [reflexivity|]. apply erase_name_by_position; [|reflexivity].
  unfold aa. repeat (rewrite insert_inserted; [apply wf_inserted|]); apply wf_empty.
Defined.

(** X6. [erase(position)] runs into undefined behaviour, the erasure of the
    end iterator of the name index, exactly when the column at the position
    has a name without an entry; two columns of one name, one of them
    erased, leave the other in that state. *)
Theorem erase_undefined b position :
  wf b ->
  (erase b position = Undefined <->
   exists e, elements b !! position = Some e /\ has b (name e) = false).
Proof.
  intros Hwf. unfold elements. rewrite list_lookup_fmap.
  destruct (data b !! position) as [[it e]|] eqn:Hp; simpl.
  - destruct (index_by_name b !! name e) as [it'|] eqn:Hn.
    + rewrite (erase_Ok b position it e Hwf Hp) by (by rewrite Hn).
      split; [done|]. intros (e' & [= <-] & He'%has_false). congruence.
    + rewrite (erase_Undefined b position it e Hwf Hp Hn).
      split; [|done]. intros _. exists e. split; [done|]. by apply has_false.
  - apply lookup_ge_None_1 in Hp. rewrite <- (wf_columns b Hwf) in Hp.
    unfold erase, columns in *. rewrite decide_True by lia.
    split; [done|]. by intros (e & ? & _).
Qed.

Lemma erase_undefined_witness : erase aa_erased 0 = Undefined.
Proof.
  apply erase_undefined.
  - apply (wf_erased aa 0 1 (col "a" Int32 0)); [|reflexivity].
    unfold aa. repeat (rewrite insert_inserted; [apply wf_inserted|]); apply wf_empty.
  - by exists (col "a" Int64 1).
Defined.

Lemma erased_inserted b position e :
  position <= length (data b) -> wf b -> has b (name e) = false ->
  let b2 := erased (inserted b position e) position (name e) in
  data b2 = data b /\ index_by_name b2 = index_by_name b /\
  index_by_position b2 = index_by_position b.
Proof.
  intros Hp Hwf Hn%has_false. simpl.
  assert (Hdel : forall (A : Type) (l : list A) (x : A),
            position <= length l -> delete position (take position l ++ x :: drop position l) = l).
  { intros A l x Hl. rewrite <- (take_drop position l) at 3.
    rewrite <- (delete_middle (take position l) (drop position l) x).
    f_equal. rewrite length_take. lia. }
  split; [by apply Hdel|]. split.
  - rewrite delete_insert_eq. by apply delete_id.
  - apply Hdel. by rewrite (wf_position b Hwf), length_fmap.
Qed.

(** X7. Round trip: inserting a column whose name the block does not have
    and erasing it again, by position or by name, gives back the sequence
    and both indexes. *)
Theorem insert_then_erase b position e :
  wf b -> position <= columns b -> has b (name e) = false ->
  exists b1 b2,
    insert_at b position e = Ok b1 /\
    erase b1 position = Ok b2 /\ erase_name b1 (name e) = Ok b2 /\
    data b2 = data b /\ index_by_name b2 = index_by_name b /\
    index_by_position b2 = index_by_position b.
Proof.
  intros Hwf Hp Hn.
  pose proof (wf_inserted b position e Hwf) as Hwf'.
  pose proof Hp as Hp'. rewrite (wf_columns b Hwf) in Hp'.
  pose proof (data_inserted_middle b position e Hp') as Hmid.
  assert (Hname : index_by_name (inserted b position e) !! name e = Some (next_node b)).
  { simpl. by rewrite lookup_insert_eq. }
  assert (Her : erase (inserted b position e) position
                = Ok (erased (inserted b position e) position (name e))).
  { eapply erase_Ok; [done..|]. by eexists. }
  exists (inserted b position e), (erased (inserted b position e) position (name e)).
  split; [by apply insert_at_Ok|]. split; [done|]. split.
  - rewrite <- Her. apply erase_name_erase; [done|].
    destruct (by_name_Ok _ _ _ Hwf' Hname) as (q & e' & Hq & _ & Hpos & _).
    by destruct (data_lookup_unique _ _ _ _ _ _ Hwf' Hq Hmid) as [-> _].
  - by apply erased_inserted.
Qed.

Lemma insert_then_erase_witness :
  exists b1 b2,
    insert_at abc 1 mid = Ok b1 /\ erase b1 1 = Ok b2 /\ erase_name b1 "mid" = Ok b2 /\
    data b2 = data abc /\ index_by_name b2 = index_by_name abc /\
    index_by_position b2 = index_by_position abc.
Proof.
  apply (insert_then_erase abc 1 mid).
  - unfold abc. repeat (rewrite insert_inserted; [apply wf_inserted|]); apply wf_empty.
  - vm_compute. lia.
  - reflexivity.
Defined.

(** X8. In a block built without duplicates, [erase(position)] throws
    [POSITION_OUT_OF_BOUND] exactly from the number of columns on; below it
    removes the element at the position and nothing else, the name of that
    element is no longer found nor among the names, all other names are
    found as before, and the block is again one built without
    duplicates. *)
Theorem erase_spec b position :
  reachable true b ->
  (throws (erase b position) POSITION_OUT_OF_BOUND <-> columns b <= position) /\
  (position < columns b ->
     exists b' e,
       erase b position = Ok b' /\ elements b !! position = Some e /\
       elements b' = delete position (elements b) /\
       has b' (name e) = false /\ (name e ∉ names b') /\
       (forall n, n <> name e -> has b' n = has b n) /\
       reachable true b').
Proof.
  intros Hr. pose proof (reachable_wf _ _ Hr) as Hwf.
  pose proof (reachable_indexed _ Hr) as Hidx.
  destruct (data b !! position) as [[it e]|] eqn:Hp.
  - pose proof (lookup_lt_Some _ _ _ Hp) as Hlt. rewrite <- (wf_columns b Hwf) in Hlt.
    assert (Hn : index_by_name b !! name e = Some it).
    { apply Hidx. by eapply list_elem_of_lookup_2. }
    assert (Her : erase b position = Ok (erased b position (name e))).
    { eapply erase_Ok; [done..|]. by eexists. }
    assert (Hr' : reachable true (erased b position (name e))).
    { by eapply reach_erase. }
    assert (Hhas : has (erased b position (name e)) (name e) = false).
    { apply has_false. simpl. apply lookup_delete_eq. }
    split.
    + rewrite Her. split; [by intros [msg ?]|lia].
    + intros _. exists (erased b position (name e)), e.
      split; [done|]. split; [unfold elements; by rewrite list_lookup_fmap, Hp|].
      split; [unfold elements; simpl; by rewrite list_fmap_delete|].
      split; [done|]. split.
      * intros Hin. apply indexed_names in Hin.
        -- congruence.
        -- by eapply reachable_wf.
        -- by apply reachable_indexed.
      * split; [|done]. intros n Hne. unfold has. simpl. by rewrite lookup_delete_ne.
  - apply lookup_ge_None_1 in Hp. rewrite <- (wf_columns b Hwf) in Hp. split; [|lia].
    split; [done|]. intros _. unfold erase, columns in *. rewrite decide_True by lia.
    by eexists.
Qed.

Lemma erase_spec_witness :
  exists b' e,
    erase abc 1 = Ok b' /\ elements abc !! 1 = Some e /\
    elements b' = delete 1 (elements abc) /\ has b' (name e) = false.
Proof.
  destruct (erase_spec abc 1) as [_ H].
  - unfold abc. repeat (apply reach_insert; [|reflexivity]). apply reach_empty.
  - destruct H as (b' & e & H1 & H2 & H3 & H4 & _); [vm_compute; lia|].
    by exists b', e.
Defined.

(** *** insertUnique, twice *)

(** X9. After [insertUnique(e)] the name of [e] is found, a second
    [insertUnique(e)] changes nothing, and a block built without duplicates
    stays one. *)
Theorem insertUnique_idempotent b e :
  has (insertUnique b e) (name e) = true /\
  insertUnique (insertUnique b e) e = insertUnique b e /\
  (reachable true b -> reachable true (insertUnique b e)).
Proof.
  assert (Hhas : has (insertUnique b e) (name e) = true).
  { unfold insertUnique. destruct (has b (name e)) eqn:Hn; [done|].
    apply has_true. simpl. rewrite lookup_insert_eq. by eexists. }
  split; [done|]. split.
  - unfold insertUnique at 1. by rewrite Hhas.
  - intros Hr. unfold insertUnique. destruct (has b (name e)) eqn:Hn; [done|].
    by apply reach_insert.
Qed.

Lemma insertUnique_idempotent_witness :
  reachable true (insertUnique abc mid).
Proof.
  apply (insertUnique_idempotent abc mid).
  unfold abc. repeat (apply reach_insert; [|reflexivity]). apply reach_empty.
Defined.

(** *** Copies *)

Lemma assign_indexes_spec (l : list (nat * ColumnWithNameAndType)) pos
    (bp : list nat) (bn : gmap string nat) :
  pos + length l <= length bp ->
  assign_indexes l pos bp bn
  = (take pos bp ++ l.*1 ++ drop (pos + length l) bp,
     foldl (fun m x => <[name x.2 := x.1]> m) bn l).
Proof.
  revert pos bp bn. induction l as [|[it e] l IH]; intros pos bp bn Hlen; simpl in *.
  - by rewrite Nat.add_0_r, take_drop.
  - rewrite IH by (rewrite length_insert; lia). f_equal.
    rewrite (take_S_r _ _ it) by (apply list_lookup_insert_eq; lia).
    rewrite take_insert_ge by lia. rewrite drop_insert_lt by lia.
    rewrite <- app_assoc. simpl.
    by replace (S (pos + length l)) with (pos + S (length l)) by lia.
Qed.

Lemma name_index_found (l : list (nat * ColumnWithNameAndType)) (bn : gmap string nat) n it :
  foldl (fun m x => <[name x.2 := x.1]> m) bn l !! n = Some it ->
  bn !! n = Some it \/ exists e, (it, e) ∈ l /\ name e = n.
Proof.
  revert bn. induction l as [|[i e] l IH]; intros bn; simpl; [by left|].
  intros [Hbn|(e' & Hin & He)]%IH.
  - destruct (decide (name e = n)) as [<-|Hne].
    + rewrite lookup_insert_eq in Hbn. injection Hbn as ->.
      right. exists e. split; [by left|done].
    + rewrite lookup_insert_ne in Hbn by done. by left.
  - right. exists e'. split; [by right|done].
Qed.

Lemma name_index_last (l : list (nat * ColumnWithNameAndType)) (bn : gmap string nat) p it e :
  l !! p = Some (it, e) ->
  (forall q x, p < q -> l !! q = Some x -> name x.2 <> name e) ->
  foldl (fun m x => <[name x.2 := x.1]> m) bn l !! name e = Some it.
Proof.
  revert bn p. induction l as [|[i x] l IH]; intros bn p Hp Hlast; [done|].
  simpl. destruct p as [|p]; simpl in Hp.
  - injection Hp as -> ->.
    assert (Hkeep : forall (k : list (nat * ColumnWithNameAndType)) (m : gmap string nat),
              (forall y, y ∈ k -> name y.2 <> name e) -> m !! name e = Some it ->
              foldl (fun m x => <[name x.2 := x.1]> m) m k !! name e = Some it).
    { induction k as [|y k IHk]; intros m Hk Hm; [done|]. simpl. apply IHk.
      - intros z Hz. apply Hk. by right.
      - rewrite lookup_insert_ne; [done|]. apply Hk. by left. }
    apply Hkeep; [|by rewrite lookup_insert_eq].
    intros y [q Hq]%list_elem_of_lookup_1. by apply (Hlast (S q)); [lia|].
  - apply (IH _ p Hp). intros q y Hq Hy. by apply (Hlast (S q)); [lia|].
Qed.

Lemma name_index_all (l : list (nat * ColumnWithNameAndType)) (bn : gmap string nat) x :
  x ∈ l -> is_Some (foldl (fun m x => <[name x.2 := x.1]> m) bn l !! name x.2).
Proof.
  revert bn. induction l as [|y l IH] using rev_ind; intros bn Hin.
  - by apply elem_of_nil in Hin.
  - rewrite foldl_snoc.
    destruct (decide (name y.2 = name x.2)) as [Heq|Hne].
    + rewrite Heq, lookup_insert_eq. by eexists.
    + rewrite lookup_insert_ne by done. apply IH.
      apply elem_of_app in Hin as [Hin|Hin%list_elem_of_singleton]; [done|congruence].
Qed.

(** X10. Assignment rebuilds both indexes from the sequence copied: the
    result does not depend on what the assigned block held, it satisfies the
    representation invariant, every name of the sequence is found, also one
    that had lost its entry in the source, and a name is found at the last
    position that carries it. *)
Theorem assign_spec this other :
  wf other ->
  assign this other = copy other /\
  wf (assign this other) /\
  elements (assign this other) = elements other /\
  (forall n, n ∈ names other -> has (assign this other) n = true) /\
  (forall n p, last_position other n p ->
     getPositionByName (assign this other) n = Ok p).
Proof.
  intros Hwf.
  assert (Heq : forall t, assign t other
    = {| data := data other; index_by_position := (data other).*1;
         index_by_name := foldl (fun m x => <[name x.2 := x.1]> m) ∅ (data other);
         next_node := next_node other |}).
  { intros t. unfold assign. rewrite assign_indexes_spec by (rewrite length_resize; lia).
    simpl. rewrite drop_ge by (rewrite length_resize; lia). by rewrite app_nil_r. }
  assert (Hwf' : wf (assign this other)).
  { rewrite Heq. split; simpl; [done|apply Hwf|apply Hwf|].
    intros n it [Hn|Hn]%name_index_found; [by rewrite lookup_empty in Hn|done]. }
  split; [unfold copy; by rewrite !Heq|]. split; [done|].
  split; [by rewrite Heq|]. split.
  - intros n Hn. apply has_true. rewrite Heq. simpl.
    unfold names, elements in Hn.
    apply list_elem_of_fmap in Hn as (e & -> & Hin).
    apply list_elem_of_fmap in Hin as (x & -> & Hin).
    by apply name_index_all.
  - intros n p [(e & He & <-) Hlast].
    unfold elements in He. rewrite list_lookup_fmap in He.
    destruct (data other !! p) as [[it e']|] eqn:Hp; simplify_eq/=.
    assert (Hn : index_by_name (assign this other) !! name e = Some it).
    { rewrite Heq. simpl. apply (name_index_last _ _ p); [done|].
      intros q x Hq Hx. apply (Hlast q); [done|].
      unfold elements. by rewrite list_lookup_fmap, Hx. }
    destruct (by_name_Ok _ _ _ Hwf' Hn) as (q & x & Hq & _ & Hpos & _).
    rewrite Heq in Hq. simpl in Hq.
    by destruct (data_lookup_unique _ _ _ _ _ _ Hwf Hq Hp) as [-> _].
Qed.

Lemma assign_spec_witness :
  has (assign abc aa_erased) "a" = true /\ getPositionByName (assign abc aa_erased) "a" = Ok 0.
Proof.
  assert (Hwf : wf aa_erased).
  { apply (wf_erased aa 0 1 (col "a" Int32 0)); [|reflexivity].
    unfold aa. repeat (rewrite insert_inserted; [apply wf_inserted|]); apply wf_empty. }
  destruct (assign_spec abc aa_erased Hwf) as (_ & _ & _ & Hhas & Hpos). split.
  - apply Hhas. vm_compute. left.
  - apply Hpos. split.
    + by exists (col "a" Int64 1).
    + intros q e Hq He. destruct q as [|[|q]]; [lia|done..].
Defined.

(** *** The dump of the names *)

Lemma append_empty_r (s : string) : s +:+ EmptyString = s.
Proof.
  induction s as [|a s IH]; [done|].
  change (String a (s +:+ EmptyString) = String a s). by rewrite IH.
Qed.

Lemma dumpNames_from_cons first it e (l : list (nat * ColumnWithNameAndType)) :
  dumpNames_from first ((it, e) :: l)
  = (if first then EmptyString else ", ") +:+ name e +:+ dumpNames_from false l.
Proof. done. Qed.

(** X11. [dumpNames] is the names in position order, joined by a comma and
    a space. *)
Theorem dumpNames_join b : dumpNames b = String.concat ", " (names b).
Proof.
  unfold dumpNames, names, elements.
  destruct (data b) as [|[it e] l]; [done|].
  rewrite dumpNames_from_cons. change (EmptyString +:+ ?s) with s.
  revert it e. induction l as [|[it' e'] l IH]; intros it e.
  - simpl. apply append_empty_r.
  - rewrite dumpNames_from_cons.
    change (String.concat ", " (name <$> ((it, e) :: (it', e') :: l).*2))
      with (name e +:+ ", " +:+ String.concat ", " (name <$> ((it', e') :: l).*2)).
    by rewrite <- IH.
Qed.

Lemma includes_prefix (sub post : string) : includes sub (sub +:+ post) = true.
Proof.
  assert (Hp : String.prefix sub (sub +:+ post) = true).
  { induction sub as [|a sub IH]; simpl; [by destruct post|].
    destruct (Ascii.ascii_dec a a); [done|congruence]. }
  destruct (sub +:+ post); cbn [includes]; by rewrite Hp.
Qed.

Lemma dumpNames_from_includes first (l : list (nat * ColumnWithNameAndType)) x :
  x ∈ l -> includes (name x.2) (dumpNames_from first l) = true.
Proof.
  revert first. induction l as [|[it e] l IH]; intros first Hin.
  - by apply elem_of_nil in Hin.
  - rewrite dumpNames_from_cons. apply includes_prepend.
    apply elem_of_cons in Hin as [->|Hin].
    + apply includes_prefix.
    + apply includes_prepend. by apply IH.
Qed.

(** X12. Every name of the block occurs in its dump. *)
Theorem dumpNames_complete b n :
  n ∈ names b -> includes n (dumpNames b) = true.
Proof.
  unfold names, elements. intros (e & -> & Hin)%list_elem_of_fmap.
  apply list_elem_of_fmap in Hin as (x & -> & Hin).
  by apply dumpNames_from_includes.
Qed.

Lemma dumpNames_complete_witness : includes "b" (dumpNames abc) = true.
Proof. apply dumpNames_complete. vm_compute. right; left. Defined.

(** *** Rows, after a column is appended *)

Lemma rows_from_app m fn (l1 l2 : list (nat * ColumnWithNameAndType)) res :
  rows_from m fn (l1 ++ l2) res
  = match rows_from m fn l1 res with
    | Ok r => rows_from m fn l2 r
    | failed => failed
    end.
Proof.
  revert res. induction l1 as [|[it e] l1 IH]; intros res; simpl; [done|].
  destruct (isNull m (column e)); [done|].
  by destruct (negb (res =? 0) && negb (column_size m (column e) =? res)).
Qed.

(** X13. Appending does not look at sizes, nor at the handle; [rows()]
    does afterwards. If [rows()] returned [r] before and the handle of the
    new column is not null, it returns the size of the new column when [r]
    is zero or that size is [r], and throws
    [SIZES_OF_COLUMNS_DOESNT_MATCH] otherwise; if the handle is null,
    [rows()] dereferences it. *)
Theorem rows_insert m b e r :
  rows m b = Ok r ->
  (isNull m (column e) = false ->
     (r = 0 \/ column_size m (column e) = r ->
        rows m (insert b e) = Ok (column_size m (column e))) /\
     (r <> 0 -> column_size m (column e) <> r ->
        throws (rows m (insert b e)) SIZES_OF_COLUMNS_DOESNT_MATCH)) /\
  (isNull m (column e) = true -> rows m (insert b e) = NullPointer).
Proof.
  unfold rows. simpl. intros Hr.
  assert (Hpre : rows_from m (first_name (data b ++ [(next_node b, e)])) (data b) 0 = Ok r).
  { destruct (data b) as [|[it x] l]; [done|]. exact Hr. }
  rewrite rows_from_app, Hpre. simpl. split; intros ->; [|done]. split.
  - intros [-> | ->].
    + done.
    + by rewrite Nat.eqb_refl, andb_false_r.
  - intros H0%Nat.eqb_neq H1%Nat.eqb_neq. rewrite H0, H1. simpl. by eexists.
Qed.

Lemma rows_insert_witness :
  throws (rows (rows_memory [5; 5; 7]) (insert xy (col "z" Int32 2)))
         SIZES_OF_COLUMNS_DOESNT_MATCH.
Proof.
  apply (rows_insert (rows_memory [5; 5; 7]) xy (col "z" Int32 2) 5).
  - reflexivity.
  - reflexivity.
  - done.
  - vm_compute. lia.
Defined.

(** *** The two row counts *)

(** When [rows()] returns, no handle is null and every column that is not
    empty has the rows it returns. *)
Lemma rows_Ok_no_null m b r : rows m b = Ok r -> no_null m b = true.
Proof.
  intros Hr. destruct (rows_cases m b) as [Hthrow Hok].
  assert (Hno : ~ exists k, mismatch_at (sizes_before_null m b) k).
  { intros Hm. apply Hthrow in Hm as [msg Hm]. congruence. }
  rewrite (Hok Hno) in Hr. by destruct (no_null m b).
Qed.

Lemma rows_Ok_sizes m b r i s :
  rows m b = Ok r -> sizes m b !! i = Some s -> s <> 0 -> r = s.
Proof.
  intros Hr Hi Hs.
  pose proof (rows_Ok_no_null m b r Hr) as Hnull.
  destruct (rows_cases m b) as [Hthrow Hok].
  rewrite (sizes_before_null_all m b Hnull) in Hthrow, Hok.
  assert (Hno : ~ exists k, mismatch_at (sizes m b) k).
  { intros Hm. apply Hthrow in Hm as [msg Hm]. congruence. }
  rewrite (Hok Hno), Hnull in Hr. injection Hr as <-.
  pose proof (lookup_lt_Some _ _ _ Hi) as Hlt.
  rewrite last_lookup.
  rewrite (no_mismatch_constant (sizes m b) i (pred (length (sizes m b))) s); (done || lia).
Qed.

Lemma rowsInFirstColumn_all_null m b :
  (forall e, e ∈ elements b -> isNull m (column e) = true) ->
  rowsInFirstColumn m b = 0.
Proof.
  unfold rowsInFirstColumn, elements. intros Hnull.
  destruct (data b) as [|x l0] eqn:Hd; [done|]. rewrite <- Hd in *. clear Hd.
  induction (data b) as [|[it e] l IH]; [done|]. simpl.
  rewrite Hnull; [|by left]. simpl. apply IH. intros e' He'. apply Hnull. by right.
Qed.

(** X14. [rowsInFirstColumn] is 0 when every handle is null; and when no
    handle is null and [rows()] returns, it is what [rows()] returns, or 0
    for a first column that is empty. *)
Theorem rowsInFirstColumn_spec m b :
  ((forall e, e ∈ elements b -> isNull m (column e) = true) ->
     rowsInFirstColumn m b = 0) /\
  ((forall e, e ∈ elements b -> isNull m (column e) = false) ->
     forall r, rows m b = Ok r ->
       rowsInFirstColumn m b = r \/ rowsInFirstColumn m b = 0).
Proof.
  split; [apply rowsInFirstColumn_all_null|].
  intros Hnull r Hr. unfold rowsInFirstColumn.
  destruct (data b) as [|[it e] l] eqn:Hd; [by right|].
  simpl. rewrite Hnull; [|unfold elements; rewrite Hd; by left]. simpl.
  destruct (decide (column_size m (column e) = 0)) as [->|Hne]; [by right|].
  left. symmetry. apply (rows_Ok_sizes m b r 0); [done| |done].
  unfold sizes, elements. by rewrite Hd.
Qed.

Lemma rowsInFirstColumn_spec_witness :
  rowsInFirstColumn (null_at 0 (rows_memory [0; 5; 5])) xyz = 5 /\
  (rowsInFirstColumn (rows_memory [0; 5; 5]) xyz = 5 \/
   rowsInFirstColumn (rows_memory [0; 5; 5]) xyz = 0) /\
  rowsInFirstColumn (null_at 0 (null_at 1 (null_at 2 (rows_memory [0; 5; 5])))) xyz = 0.
Proof.
  split; [reflexivity|]. split.
  - destruct (rowsInFirstColumn_spec (rows_memory [0; 5; 5]) xyz) as [_ H].
    apply H; [|reflexivity].
    intros e He. vm_compute in He.
    repeat (apply elem_of_cons in He as [->|He]);
      try (by apply elem_of_nil in He); reflexivity.
  - destruct (rowsInFirstColumn_spec
                (null_at 0 (null_at 1 (null_at 2 (rows_memory [0; 5; 5])))) xyz) as [H _].
    apply H. intros e He. vm_compute in He.
    repeat (apply elem_of_cons in He as [->|He]);
      try (by apply elem_of_nil in He); reflexivity.
Defined.

(** *** The comparators as relations *)

Lemma comparator_spec same lhs rhs :
  wf lhs -> wf rhs ->
  exists r, (if negb (columns rhs =? columns lhs) then Ok false
             else structure_loop same lhs rhs (columns lhs) 0) = Ok r /\
    (r = true <->
     columns lhs = columns rhs /\
     forall i l r', elements lhs !! i = Some l -> elements rhs !! i = Some r' ->
       same (type l) (type r') = true).
Proof.
  intros Hl Hr. destruct (columns rhs =? columns lhs) eqn:Hc; simpl.
  - apply Nat.eqb_eq in Hc.
    destruct (structure_loop_spec same lhs rhs (columns lhs) 0 Hl Hr)
      as (r & Hres & Hiff); [lia..|].
    exists r. split; [done|]. rewrite Hiff. split.
    + intros H. split; [done|]. intros i l r' Hl' Hr'. apply (H i); [|done..].
      apply lookup_lt_Some in Hl'. rewrite <- (columns_elements _ Hl) in Hl'. lia.
    + intros [_ H] k l r' _. apply H.
  - apply Nat.eqb_neq in Hc. exists false. split; [done|]. split; [done|].
    intros [Heq _]. congruence.
Qed.

Lemma comparator_true same lhs rhs :
  wf lhs -> wf rhs ->
  ((if negb (columns rhs =? columns lhs) then Ok false
    else structure_loop same lhs rhs (columns lhs) 0) = Ok true
   <-> columns lhs = columns rhs /\
       forall i l r', elements lhs !! i = Some l -> elements rhs !! i = Some r' ->
         same (type l) (type r') = true).
Proof.
  intros Hl Hr. destruct (comparator_spec same lhs rhs Hl Hr) as (r & -> & Hiff).
  rewrite <- Hiff. split; congruence.
Qed.

Lemma typesAreCompatible_sym a b : typesAreCompatible a b = typesAreCompatible b a.
Proof.
  unfold typesAreCompatible.
  rewrite (andb_comm (behavesAsNumber b)), (andb_comm (behavesAsString b)).
  destruct (behavesAsNumber a && behavesAsNumber b); [done|].
  destruct (behavesAsString a && behavesAsString b); [done|].
  apply (f_equal (fun c : bool => if c then true else false)), bool_decide_ext.
  split; congruence.
Qed.

Lemma typesAreCompatible_same_name a b :
  getName a = getName b -> typesAreCompatible a b = true.
Proof.
  intros H. unfold typesAreCompatible. rewrite (bool_decide_eq_true_2 _ H).
  by destruct (behavesAsNumber a && behavesAsNumber b),
    (behavesAsString a && behavesAsString b).
Qed.

(** X15. Exact structural equality is reflexive, symmetric and transitive,
    and implies compatibility; compatibility is reflexive and symmetric. *)
Theorem comparators_relations a b c :
  wf a -> wf b -> wf c ->
  blocksHaveEqualStructure a a = Ok true /\
  (blocksHaveEqualStructure a b = Ok true -> blocksHaveEqualStructure b a = Ok true) /\
  (blocksHaveEqualStructure a b = Ok true -> blocksHaveEqualStructure b c = Ok true ->
     blocksHaveEqualStructure a c = Ok true) /\
  (blocksHaveEqualStructure a b = Ok true -> blocksHaveCompatibleStructure a b = Ok true) /\
  blocksHaveCompatibleStructure a a = Ok true /\
  (blocksHaveCompatibleStructure a b = Ok true ->
     blocksHaveCompatibleStructure b a = Ok true).
Proof.
  intros Ha Hb Hc. unfold blocksHaveEqualStructure, blocksHaveCompatibleStructure.
  rewrite !comparator_true by done.
  split; [|split; [|split; [|split; [|split]]]].
  - split; [done|]. intros i l r Hl Hr. apply bool_decide_eq_true_2. congruence.
  - intros [Hab H]. split; [done|]. intros i l r Hl Hr.
    apply bool_decide_eq_true_2. symmetry. by eapply bool_decide_eq_true_1, H.
  - intros [Hab H] [Hbc H0]. split; [congruence|]. intros i l r Hl Hr.
    destruct (lookup_lt_is_Some_2 (elements b) i) as [x Hx].
    { rewrite <- (columns_elements b Hb), <- Hab, (columns_elements a Ha).
      by eapply lookup_lt_Some. }
    apply bool_decide_eq_true_2.
    pose proof (bool_decide_eq_true_1 _ (H i l x Hl Hx)).
    pose proof (bool_decide_eq_true_1 _ (H0 i x r Hx Hr)). congruence.
  - intros [Hab H]. split; [done|]. intros i l r Hl Hr.
    apply typesAreCompatible_same_name. by eapply bool_decide_eq_true_1, H.
  - split; [done|]. intros i l r Hl Hr. apply typesAreCompatible_same_name. congruence.
  - intros [Hab H]. split; [done|]. intros i l r Hl Hr.
    rewrite typesAreCompatible_sym. by eapply H.
Qed.

Lemma comparators_relations_witness :
  blocksHaveCompatibleStructure x_Int64 x_Int32 = Ok true.
Proof.
  assert (Hw : forall e, wf (insert empty e)).
  { intros e. rewrite insert_inserted; [apply wf_inserted|]; apply wf_empty. }
  destruct (comparators_relations x_Int32 x_Int64 x_Int32) as (_ & _ & _ & _ & _ & H);
    try apply Hw.
  apply H. reflexivity.
Defined.

(** *** Structural clones *)

(** Every name of the block has an entry in the name index. *)
Lemma names_insert b e : names (insert b e) = names b ++ [name e].
Proof. unfold names, elements. simpl. by rewrite !fmap_app. Qed.

Lemma elements_insert b e : elements (insert b e) = elements b ++ [e].
Proof. unfold elements. simpl. by rewrite fmap_app. Qed.

Lemma has_insert b e n :
  has (insert b e) n = if decide (name e = n) then true else has b n.
Proof.
  unfold has. simpl. case_decide as Hn.
  - subst. rewrite lookup_insert_eq. apply bool_decide_eq_true_2. by eexists.
  - by rewrite lookup_insert_ne.
Qed.

Lemma wf_insert b e : wf b -> wf (insert b e).
Proof. intros Hwf. rewrite insert_inserted by done. by apply wf_inserted. Qed.

Section CloneEmptyFacts.

Context {Heap : Type}.
Variable cloneEmpty_element : Heap -> ColumnWithNameAndType -> Heap * ColumnWithNameAndType.
Hypothesis cloneEmpty_name : forall h e, name (cloneEmpty_element h e).2 = name e.
Hypothesis cloneEmpty_type : forall h e, type (cloneEmpty_element h e).2 = type e.

Lemma cloneEmpty_from_spec h (l : list (nat * ColumnWithNameAndType)) res :
  wf res -> (forall n, n ∈ names res -> has res n = true) ->
  let r := (cloneEmpty_from cloneEmpty_element h l res).2 in
  wf r /\ (forall n, n ∈ names r -> has r n = true) /\
  names r = names res ++ (name <$> l.*2) /\
  (type <$> elements r) = (type <$> elements res) ++ (type <$> l.*2).
Proof.
  revert h res. induction l as [|[it e] l IH]; intros h res Hwf Hall; simpl.
  - by rewrite !app_nil_r.
  - destruct (IH (cloneEmpty_element h e).1 (insert res (cloneEmpty_element h e).2))
      as (H1 & H2 & H3 & H4).
    + by apply wf_insert.
    + intros n Hn. rewrite has_insert. case_decide; [done|].
      rewrite names_insert in Hn.
      apply elem_of_app in Hn as [Hn|Hn%list_elem_of_singleton]; [by apply Hall|congruence].
    + split; [done|]. split; [done|]. split.
      * rewrite H3, names_insert, cloneEmpty_name, <- app_assoc. done.
      * rewrite H4, elements_insert, fmap_app, <- app_assoc. simpl.
        by rewrite cloneEmpty_type.
Qed.

(** X16. When the clone of an element keeps its name and type, [cloneEmpty]
    gives a block of the same names and types in the same order, whose
    indexes are built anew (every name is found) and which has the structure
    of the block cloned. *)
Theorem cloneEmpty_spec h b :
  let c := (cloneEmpty cloneEmpty_element h b).2 in
  wf c /\ names c = names b /\ (type <$> elements c) = (type <$> elements b) /\
  (forall n, n ∈ names b -> has c n = true) /\
  (wf b -> blocksHaveEqualStructure b c = Ok true).
Proof.
  destruct (cloneEmpty_from_spec h (data b) empty wf_empty) as (H1 & H2 & H3 & H4).
  { intros n Hn. by apply elem_of_nil in Hn. }
  simpl. fold (cloneEmpty cloneEmpty_element h b) in *.
  change (names empty) with (@nil string) in H3.
  change (type <$> elements empty) with (@nil IDataType) in H4. simpl in H3, H4.
  fold (elements b) in H3, H4. fold (names b) in H3.
  split; [done|]. split; [done|]. split; [done|]. split.
  - intros n Hn. apply H2. by rewrite H3.
  - intros Hwf. unfold blocksHaveEqualStructure. apply comparator_true; [done..|].
    assert (Hlen : length (elements (cloneEmpty cloneEmpty_element h b).2)
                   = length (elements b)).
    { by rewrite <- (length_fmap type), H4, length_fmap. }
    split; [by rewrite !columns_elements|].
    intros i l r Hl Hr. apply bool_decide_eq_true_2.
    assert ((type <$> elements b) !! i = Some (type l)) as Hi
      by (by rewrite list_lookup_fmap, Hl).
    rewrite <- H4, list_lookup_fmap, Hr in Hi. simpl in Hi. congruence.
Qed.

End CloneEmptyFacts.

Lemma cloneEmpty_spec_witness :
  names (cloneEmpty clone_next 10 aa_erased).2 = names aa_erased /\
  has (cloneEmpty clone_next 10 aa_erased).2 "a" = true.
Proof.
  destruct (cloneEmpty_spec clone_next (fun _ _ => eq_refl) (fun _ _ => eq_refl) 10 aa_erased)
    as (_ & H1 & _ & H2 & _).
  split; [done|]. apply H2. vm_compute. left.
Defined.

(** *** Defaults *)

Lemma deref_app (l k : list (nat * ColumnWithNameAndType)) it e :
  deref l it = Some e -> deref (l ++ k) it = Some e.
Proof.
  induction l as [|[i x] l IH]; simpl; [done|]. by case_decide.
Qed.

Section DefaultsFacts.

Variable createDefaultColumn : Memory -> IDataType -> nat -> result (Memory * nat).

Lemma insertDefault_cases m b n t :
  (exists m' c,
     insertDefault createDefaultColumn m b n t
     = (Ok tt, (m', insert b {| column := c; type := t; name := n |}))) \/
  ((insertDefault createDefaultColumn m b n t).1 <> Ok tt /\
   (insertDefault createDefaultColumn m b n t).2 = (m, b)).
Proof.
  unfold insertDefault. destruct (rows m b) as [r| | |]; [|by right..].
  destruct (createDefaultColumn m t r) as [[m' c]| | |]; [|by right..].
  left. by exists m', c.
Qed.

Lemma addDefaults_invariant m b required :
  let r := addDefaults createDefaultColumn m b required in
  (exists added,
     data r.2.2 = data b ++ added /\
     Forall (fun x => has b (name x.2) = false /\ (name x.2, type x.2) ∈ required) added) /\
  (forall n, has b n = true -> index_by_name r.2.2 !! n = index_by_name b !! n) /\
  (wf b -> wf r.2.2) /\
  (r.1 = Ok tt -> forall n t, (n, t) ∈ required -> has r.2.2 n = true).
Proof.
  revert m b. induction required as [|[n t] rest IH]; intros m b; simpl.
  { split; [exists []; by rewrite app_nil_r|]. split; [done|]. split; [done|].
    intros _ n t Hin. by apply elem_of_nil in Hin. }
  assert (Hkeep : forall b0 : Block,
    (forall n0, has b n0 = true -> index_by_name b0 !! n0 = index_by_name b !! n0) ->
    forall n0, has b n0 = true -> has b0 n0 = true).
  { intros b0 Hb0 n0 Hn0. unfold has in *. by rewrite Hb0. }
  destruct (has b n) eqn:Hn.
  - destruct (IH m b) as ((added & Hd & Hadded) & Hidx & Hwf & Hall).
    split; [|split; [done|split; [done|]]].
    + exists added. split; [done|].
      eapply Forall_impl; [done|]. intros x [? ?]. split; [done|by right].
    + intros Hok n0 t0 [[= -> ->]|Hin]%elem_of_cons; [by apply Hkeep|by eapply Hall].
  - destruct (insertDefault_cases m b n t) as [(m' & c & Heq)|[Hfail Hsame]].
    + rewrite Heq.
      set (e := {| column := c; type := t; name := n |}).
      destruct (IH m' (insert b e)) as ((added & Hd & Hadded) & Hidx & Hwf & Hall).
      assert (Hidx' : forall n0, has b n0 = true ->
                index_by_name (addDefaults createDefaultColumn m' (insert b e) rest).2.2 !! n0
                = index_by_name b !! n0).
      { intros n0 Hn0. assert (n <> n0) by congruence.
        rewrite Hidx; [simpl; by rewrite lookup_insert_ne|].
        rewrite has_insert. by case_decide. }
      split; [|split; [done|split]].
      * exists ((next_node b, e) :: added). split.
        -- rewrite Hd. simpl. by rewrite <- app_assoc.
        -- constructor; [split; [done|by left]|].
           eapply Forall_impl; [done|]. intros x [Hx ?]. split; [|by right].
           rewrite has_insert in Hx. by case_decide.
      * intros Hb. by apply Hwf, wf_insert.
      * intros Hok n0 t0 [[= -> ->]|Hin]%elem_of_cons; [|by eapply Hall].
        unfold has. rewrite Hidx; [|rewrite has_insert; by case_decide].
        simpl. rewrite lookup_insert_eq. apply bool_decide_eq_true_2. by eexists.
    + destruct (insertDefault createDefaultColumn m b n t) as [[[]| | |] [m' b']];
        simpl in *; try done; injection Hsame as -> ->;
        (split; [exists []; by rewrite app_nil_r|]; split; [done|]; split; done).
Qed.

(** X17. [addDefaults] only appends: the elements the block had stay in
    front, in their order, every column added has a required name that the
    block did not have, and a name the block had finds the same element
    afterwards; when the call returns, every required name is found. This
    holds also for the block a throw leaves behind, but for the last
    part. *)
Theorem addDefaults_spec m b required :
  let r := addDefaults createDefaultColumn m b required in
  (exists added,
     elements r.2.2 = elements b ++ added /\
     Forall (fun e => has b (name e) = false /\ (name e, type e) ∈ required) added) /\
  (r.1 = Ok tt -> forall n t, (n, t) ∈ required -> has r.2.2 n = true) /\
  (wf b -> wf r.2.2 /\ forall n, has b n = true -> getByName r.2.2 n = getByName b n).
Proof.
  destruct (addDefaults_invariant m b required) as ((added & Hd & Hadded) & Hidx & Hwf & Hall).
  simpl. split; [|split; [done|]].
  - exists added.*2. split; [unfold elements; by rewrite Hd, fmap_app|].
    by apply Forall_fmap.
  - intros Hb. split; [by apply Hwf|]. intros n [it Hn]%has_true.
    destruct (by_name_Ok b n it Hb Hn) as (p & e & Hp & _ & _ & Hget).
    rewrite Hget. unfold getByName in *. rewrite Hidx by (apply has_true; by eexists).
    rewrite Hn in *. rewrite Hd.
    destruct (deref (data b) it) as [e'|] eqn:Hderef; [|done].
    by rewrite (deref_app _ _ _ _ Hderef).
Qed.

End DefaultsFacts.

Lemma addDefaults_spec_witness :
  has (addDefaults default_at_7 (rows_memory [5; 5; 5]) abc [("b", Int64); ("d", Int64)]).2.2
      "d" = true /\
  getByName (addDefaults default_at_7 (rows_memory [5; 5; 5]) abc
               [("b", Int64); ("d", Int64)]).2.2 "b"
  = getByName abc "b".
Proof.
  destruct (addDefaults_spec default_at_7 (rows_memory [5; 5; 5]) abc
              [("b", Int64); ("d", Int64)]) as (_ & H1 & H2).
  split.
  - apply (H1 eq_refl "d" Int64). right; left.
  - apply H2; [|reflexivity].
    unfold abc. repeat (rewrite insert_inserted; [apply wf_inserted|]); apply wf_empty.
Defined.

(** *** Nested arrays, checked and optimized *)

Section NestedMore.

Variable extractNestedTableName : string -> string.

Local Abbreviation check_from := (Block.check_from extractNestedTableName).
Local Abbreviation optimize_from := (Block.optimize_from extractNestedTableName).
Local Abbreviation group := (Block.group extractNestedTableName).
Local Abbreviation first_array := (Block.first_array extractNestedTableName).

Lemma first_array_app_list m (l k : list ColumnWithNameAndType) g :
  first_array m (l ++ k) g
  = match first_array m l g with
    | Some f => Some f
    | None => first_array m k g
    end.
Proof.
  induction l as [|x l IH]; simpl; [done|].
  by destruct (is_array m x && bool_decide (group x = g)).
Qed.

(** The check passes exactly when no handle is null and every array column
    has the offsets that the first array column of its nested table has. *)
Lemma check_from_spec m (l : list (nat * ColumnWithNameAndType)) seen ac :
  (forall g, ac !! g = first_array m seen g) ->
  (check_from m l ac = Ok tt \/
   check_from m l ac = Throw SIZES_OF_ARRAYS_DOESNT_MATCH sizes_do_not_match \/
   (check_from m l ac = NullPointer /\
    forallb (fun e => negb (isNull m (column e))) l.*2 = false)) /\
  (check_from m l ac = Ok tt <->
   forallb (fun e => negb (isNull m (column e))) l.*2 = true /\
   forall e, e ∈ l.*2 -> is_array m e = true ->
     exists f, first_array m (seen ++ l.*2) (group e) = Some f /\
       contents m f = contents m (column e)).
Proof.
  revert seen ac. induction l as [|[it e] l IH]; intros seen ac Hac.
  { simpl. split; [by left|]. split; [|done]. intros _. split; [done|].
    intros e He. by apply elem_of_nil in He. }
  assert (Hassoc : forall k : list ColumnWithNameAndType,
            seen ++ e :: k = (seen ++ [e]) ++ k).
  { intros k. by rewrite <- app_assoc. }
  cbn [check_from fmap list_fmap snd forallb]. rewrite Hassoc. fold (group e).
  destruct (isNull m (column e)) eqn:Hnull; cbn [negb andb].
  { split; [by right; right|]. split; [done|]. by intros [? _]. }
  destruct (offsets_of m (column e)) as [o|] eqn:He.
  2:{ assert (Harr : is_array m e = false) by (by apply is_array_false).
      destruct (IH (seen ++ [e]) ac) as [IH1 IH2].
      { intros g. rewrite first_array_app, <- Hac, Harr. by destruct (ac !! g). }
      split; [done|]. rewrite IH2. apply and_iff_compat_l. split.
      - intros H e' [->|He']%elem_of_cons Ha; [congruence|by apply H].
      - intros H e' He' Ha. apply H; [by right|done]. }
  assert (Harr : is_array m e = true) by (apply is_array_true; by eexists).
  destruct (ac !! group e) as [f|] eqn:Hg.
  - assert (Hfirst : forall k, first_array m ((seen ++ [e]) ++ k) (group e) = Some f).
    { intros k. by rewrite !first_array_app_list, <- Hac, Hg. }
    assert (Hf : exists o1, offsets_of m f = Some o1).
    { rewrite Hac in Hg. apply first_array_Some in Hg as (x & _ & <- & Hx & _).
      by apply is_array_true in Hx. }
    destruct Hf as [o1 Hf]. rewrite Hf, hasEqualOffsets_contents.
    case_bool_decide as Heq.
    + destruct (IH (seen ++ [e]) ac) as [IH1 IH2].
      { intros g. rewrite first_array_app, <- Hac.
        destruct (ac !! g) eqn:Hg'; [done|].
        rewrite bool_decide_eq_false_2, andb_false_r; [done|]. congruence. }
      split; [done|]. rewrite IH2. apply and_iff_compat_l. split.
      * intros H e' [->|He']%elem_of_cons Ha; [|by apply H].
        exists f. split; [done|]. unfold contents. rewrite Hf, He. simpl. by rewrite Heq.
      * intros H e' He' Ha. apply H; [by right|done].
    + split; [by right; left|]. split; [done|]. intros [_ H].
      destruct (H e) as (f' & Hf' & Hc); [by left|done|].
      rewrite Hfirst in Hf'. injection Hf' as <-.
      unfold contents in Hc. rewrite Hf, He in Hc. simpl in Hc. congruence.
  - destruct (IH (seen ++ [e]) (<[group e := column e]> ac)) as [IH1 IH2].
    { intros g. rewrite first_array_app, <- Hac.
      destruct (decide (group e = g)) as [<-|Hne].
      * rewrite lookup_insert_eq, Hg, Harr. by rewrite bool_decide_eq_true_2.
      * rewrite lookup_insert_ne by done. destruct (ac !! g); [done|].
        by rewrite bool_decide_eq_false_2, andb_false_r. }
    split; [done|]. rewrite IH2. apply and_iff_compat_l. split.
    + intros H e' [->|He']%elem_of_cons Ha; [|by apply H].
      exists (column e). split; [|done].
      rewrite !first_array_app_list, <- Hac, Hg. simpl.
      by rewrite Harr, bool_decide_eq_true_2.
    + intros H e' He' Ha. apply H; [by right|done].
Qed.

(** X18. With [extractNestedTableName] taken as a function that returns a
    name for every column name, [checkNestedArraysOffsets] returns, throws
    [SIZES_OF_ARRAYS_DOESNT_MATCH], or dereferences a null handle, the last
    only if some handle of the block is null. It returns exactly when no
    handle is null and every array column has offsets equal to those of
    the first array column of its nested table. *)
Theorem checkNestedArraysOffsets_spec m b :
  (checkNestedArraysOffsets extractNestedTableName m b = Ok tt \/
   checkNestedArraysOffsets extractNestedTableName m b
   = Throw SIZES_OF_ARRAYS_DOESNT_MATCH sizes_do_not_match \/
   (checkNestedArraysOffsets extractNestedTableName m b = NullPointer /\
    no_null m b = false)) /\
  (checkNestedArraysOffsets extractNestedTableName m b = Ok tt <->
   no_null m b = true /\
   forall e, e ∈ elements b -> is_array m e = true ->
     exists f, first_array m (elements b) (group e) = Some f /\
       contents m f = contents m (column e)).
Proof.
  apply (check_from_spec m (data b) [] ∅). intros g. apply lookup_empty.
Qed.

(** On columns that share already, none of them held by a null handle, the
    optimization changes nothing. *)
Lemma optimize_from_shared M all :
  sharing extractNestedTableName M M all ->
  forall (l : list (nat * ColumnWithNameAndType)) seen mc ac,
    all = seen ++ l.*2 ->
    forallb (fun e => negb (isNull M (column e))) l.*2 = true ->
    (forall c, object mc c = object M c) -> getOffsets mc = getOffsets M ->
    (forall g, ac !! g = first_array M seen g) ->
    (optimize_from mc l ac).1 = Ok tt /\
    (forall c, object (optimize_from mc l ac).2 c = object M c) /\
    getOffsets (optimize_from mc l ac).2 = getOffsets M.
Proof.
  intros Hsh.
  induction l as [|[it e] l IH]; intros seen mc ac Hall Hnull Hobj Hoff Hac; [done|].
  simpl in Hall. rewrite cons_middle, app_assoc in Hall.
  cbn [fmap list_fmap snd forallb] in Hnull.
  apply andb_true_iff in Hnull as [He_null%negb_true_iff Hnull].
  assert (Hof : forall c, offsets_of mc c = offsets_of M c).
  { intros c. unfold offsets_of. by rewrite Hobj. }
  assert (Harr : is_array M e = is_array mc e).
  { unfold is_array. by rewrite Hof. }
  assert (Hmc : isNull mc (column e) = false).
  { unfold isNull in *. by rewrite Hobj. }
  cbn [Block.optimize_from]. fold (group e). rewrite Hmc, Hof.
  destruct (offsets_of M (column e)) as [o|] eqn:He.
  2:{ apply (IH (seen ++ [e])); try done.
      intros g. rewrite first_array_app, <- Hac.
      assert (is_array M e = false) as -> by (by apply is_array_false).
      by destruct (ac !! g). }
  assert (HarrM : is_array M e = true) by (apply is_array_true; by eexists).
  destruct (ac !! group e) as [f|] eqn:Hg.
  - assert (Hfirst : first_array M all (group e) = Some f).
    { rewrite Hall. by rewrite !first_array_app_list, <- Hac, Hg. }
    destruct (Hsh e o) as (f' & Hf' & Hfo); [|done|].
    { rewrite Hall. apply elem_of_app. left. apply elem_of_app. right.
      by apply list_elem_of_singleton. }
    rewrite Hfirst in Hf'. injection Hf' as <-.
    rewrite Hof, Hfo. unfold hasEqualOffsets. rewrite bool_decide_eq_true_2 by done. simpl.
    apply (IH (seen ++ [e])); try done.
    + intros c. rewrite <- Hobj. unfold set_offsets. simpl. unfold base.insert, fn_insert.
      case_decide as Hc; [|done]. subst c. rewrite Hobj.
      unfold offsets_of in He. by destruct (object M (column e)) as [[]|]; simplify_eq.
    + intros g. rewrite first_array_app, <- Hac.
      destruct (ac !! g) eqn:Hg'; [done|].
      rewrite bool_decide_eq_false_2, andb_false_r; [done|]. congruence.
  - apply (IH (seen ++ [e])); try done.
    intros g. rewrite first_array_app, <- Hac.
    destruct (decide (group e = g)) as [<-|Hne].
    + rewrite lookup_insert_eq, Hg, HarrM. by rewrite bool_decide_eq_true_2.
    + rewrite lookup_insert_ne by done. destruct (ac !! g); [done|].
      by rewrite bool_decide_eq_false_2, andb_false_r.
Qed.

Lemma no_null_ext m m' b :
  (forall c, isNull m' c = isNull m c) -> no_null m' b = no_null m b.
Proof.
  intros H. unfold no_null. induction (elements b) as [|e l IH]; simpl; [done|].
  by rewrite H, IH.
Qed.

(** X19. On a block of which no handle is null and whose array columns
    share the offsets of the first of their nested table,
    [optimizeNestedArraysOffsets] returns and leaves every column object as
    it is; so a second optimization after a first that returned changes
    nothing, when no array column object belongs to two nested tables. *)
Theorem optimize_again m b :
  (no_null m b = true -> shares_offsets extractNestedTableName m b ->
     (optimizeNestedArraysOffsets extractNestedTableName m b).1 = Ok tt /\
     forall c, object (optimizeNestedArraysOffsets extractNestedTableName m b).2 c
               = object m c) /\
  (unshared extractNestedTableName m (elements b) ->
   (optimizeNestedArraysOffsets extractNestedTableName m b).1 = Ok tt ->
   let m' := (optimizeNestedArraysOffsets extractNestedTableName m b).2 in
   (optimizeNestedArraysOffsets extractNestedTableName m' b).1 = Ok tt /\
   forall c, object (optimizeNestedArraysOffsets extractNestedTableName m' b).2 c
             = object m' c).
Proof.
  assert (Hshared : forall M, no_null M b = true ->
    shares_offsets extractNestedTableName M b ->
    (optimizeNestedArraysOffsets extractNestedTableName M b).1 = Ok tt /\
    forall c, object (optimizeNestedArraysOffsets extractNestedTableName M b).2 c
              = object M c).
  { intros M Hnull Hsh.
    destruct (optimize_from_shared M (elements b) Hsh (data b) [] M ∅) as (H1 & H2 & _);
      try done. }
  split; [apply Hshared|].
  intros Hun Hok m'.
  destruct (optimize_from_check extractNestedTableName m (data b) ∅) as [Hres Hcont].
  apply Hshared.
  - unfold m', optimizeNestedArraysOffsets.
    rewrite (no_null_ext m); [|apply optimize_from_isNull].
    unfold optimizeNestedArraysOffsets in Hok. rewrite Hres in Hok.
    by apply (check_from_spec m (data b) [] ∅) in Hok as [Hnull _].
  - unfold shares_offsets.
    pose proof (kinds_contents _ _ Hcont) as Hk.
    assert (Hsh : sharing extractNestedTableName m m' (elements b)).
    { apply (optimize_from_sharing extractNestedTableName m (elements b) Hun (data b) [] m ∅);
        try done.
      intros e' o' Hin'. by apply elem_of_nil in Hin'. }
    intros e o Hin Ho. destruct (Hsh e o Hin Ho) as (f & Hf & Hof).
    exists f. split; [|done]. by rewrite (first_array_kinds _ _ m).
Qed.

End NestedMore.

Lemma optimize_again_witness :
  (optimizeNestedArraysOffsets nested_table_name
     (optimizeNestedArraysOffsets nested_table_name three_arrays two_tables_apart).2
     two_tables_apart).1 = Ok tt /\
  (optimizeNestedArraysOffsets nested_table_name (rows_memory [5; 5; 5]) xyz).1 = Ok tt.
Proof.
  split.
  - destruct (optimize_again nested_table_name three_arrays two_tables_apart) as [_ H].
    apply H.
    + intros e1 e2 H1 H2 _ Hc. vm_compute in H1, H2.
      repeat (apply elem_of_cons in H1 as [->|H1]);
        repeat (apply elem_of_cons in H2 as [->|H2]);
        try (by apply elem_of_nil in H1); try (by apply elem_of_nil in H2);
        (reflexivity || discriminate Hc).
    + vm_compute. reflexivity.
  - destruct (optimize_again nested_table_name (rows_memory [5; 5; 5]) xyz) as [H _].
    apply H; [reflexivity|].
    intros e o He Ho. vm_compute in He.
    repeat (apply elem_of_cons in He as [->|He]);
      try (by apply elem_of_nil in He); discriminate Ho.
Defined.

End BlockMore.
